(** * RealChar terminal client (client/client.py): playback queue and frame dispatch

    A shallow embedding of [AudioPlayer] (the playback worker thread, the
    shared queue and the stop flag), of the frame dispatcher
    [receive_message] and of the task set-up of [start_client].

    The playback worker runs on its own thread.  It is embedded as a
    program counter per source line with one step per shared-memory access;
    the caller of the methods of [AudioPlayer] is embedded the same way,
    and the two are interleaved by the relation [step].  There is one
    caller: in the program the methods are called from [receive_message]
    only, one call after the other.

    Outside the program, and taken as given: the audio libraries (decoding
    a buffer may raise; a decoded wave object is assumed to start playing
    when [play()] is called, and [is_playing()] answers [True] for a finite
    number of polls), the transport, and [asyncio.gather], embedded after
    its done callback. *)

From Stdlib Require Import String Ascii Sorted.
From stdpp Require Import base option list relations.

(** ** The player and its worker thread *)

Module Player.

Section WithDecoder.

(** [wav] stands for the [io.BytesIO] handed to [start_playing].
    [from_wave_file w] is [WaveObject.from_wave_file]: [None] when the call
    raises (the buffer is not a readable WAV file), otherwise the play time
    of the decoded wave object, counted in polls of [is_playing()] that
    answer [True]. *)
Context {wav : Type}.
Context (from_wave_file : wav → option nat).

(** Program counter of [play_audio]; the constructor names are line
    numbers of client.py. *)
Inductive wpc :=
  | L33                    (* while not self.stop_flag ...           *)
  | L33_empty              (*       ... or not self.queue.empty():   *)
  | L35                    (* wav_data = self.queue.get_nowait()     *)
  | L39 (wav_data : wav)   (* wave_obj = WaveObject.from_wave_file() *)
  | L40 (wave_obj : nat)   (* play_obj = wave_obj.play()             *)
  | L42                    (* while play_obj.is_playing() and not self.stop_flag: sleep *)
  | L45                    (* if self.stop_flag: play_obj.stop()     *)
  | Returned               (* the loop was left, play_audio returned *)
  | Raised.                (* an exception left play_audio           *)

(** A thread running [play_audio].  [play_obj] is the local variable of
    that name: the number of further polls for which the object started
    last still sounds (0: nothing started, finished, or stopped). *)
Record thread := Thread { pc : wpc; play_obj : nat }.

Definition is_alive (t : thread) : bool :=
  match pc t with
  | Returned | Raised => false
  | _ => true
  end.

(** The fields of [AudioPlayer], and the threads created so far
    ([play_thread] refers to one of them by position). *)
Record state := State {
  play_thread : option nat;
  stop_flag : bool;
  queue : list wav;
  threads : list thread
}.

(** [AudioPlayer.__init__] *)
Definition init : state :=
  {| play_thread := None; stop_flag := false; queue := []; threads := [] |}.

Definition set_play_thread (o : option nat) (s : state) : state :=
  {| play_thread := o; stop_flag := stop_flag s; queue := queue s; threads := threads s |}.
Definition set_stop_flag (b : bool) (s : state) : state :=
  {| play_thread := play_thread s; stop_flag := b; queue := queue s; threads := threads s |}.
Definition set_queue (q : list wav) (s : state) : state :=
  {| play_thread := play_thread s; stop_flag := stop_flag s; queue := q; threads := threads s |}.
Definition set_threads (ts : list thread) (s : state) : state :=
  {| play_thread := play_thread s; stop_flag := stop_flag s; queue := queue s; threads := ts |}.

(** One step of [play_audio] (lines 32-46), given the shared flag and
    queue; returns the queue and the thread afterwards. *)
Definition play_audio_step (flag : bool) (q : list wav) (t : thread)
  : list wav * thread :=
  match pc t with
  | L33 =>
      (q, Thread (if flag then L33_empty else L35) (play_obj t))
  | L33_empty =>
      (q, Thread (match q with [] => Returned | _ :: _ => L35 end) (play_obj t))
  | L35 =>
      match q with
      | [] => (q, Thread L33 (play_obj t))          (* queue.Empty: continue *)
      | wav_data :: q' => (q', Thread (L39 wav_data) (play_obj t))
      end
  | L39 wav_data =>
      match from_wave_file wav_data with
      | Some wave_obj => (q, Thread (L40 wave_obj) (play_obj t))
      | None => (q, Thread Raised (play_obj t))
      end
  | L40 wave_obj =>
      (q, Thread L42 wave_obj)
  | L42 =>
      if (0 <? play_obj t) && negb flag
      then (q, Thread L42 (pred (play_obj t)))      (* time.sleep(0.1) *)
      else (q, Thread L45 (play_obj t))
  | L45 =>
      (q, Thread L33 (if flag then 0 else play_obj t))
  | Returned | Raised => (q, t)
  end.

(** Thread [i] takes one step. *)
Definition thread_step (i : nat) (s : state) : state :=
  match threads s !! i with
  | Some t =>
      let '(q, t') := play_audio_step (stop_flag s) (queue s) t in
      set_threads (<[i := t']> (threads s)) (set_queue q s)
  | None => s
  end.

(** [self.play_thread.is_alive()], false for [None]. *)
Definition thread_alive (s : state) : bool :=
  match play_thread s with
  | Some i =>
      match threads s !! i with
      | Some t => is_alive t
      | None => false
      end
  | None => false
  end.

(** Program counter of the caller inside [start_playing] (lines 48-54),
    [stop_playing] (lines 56-60) and [add_to_queue] (lines 62-63). *)
Inductive mpc :=
  | Idle
  | M49 (wav_data : wav)   (* self.stop_flag = False *)
  | M50 (wav_data : wav)   (* self.queue.put(wav_data) *)
  | M52                    (* if self.play_thread is None or not ...is_alive(): *)
  | M53                    (* self.play_thread = Thread(...); ...start() *)
  | M57                    (* if self.play_thread and ...is_alive(): *)
  | M58                    (* self.stop_flag = True *)
  | M59                    (* self.play_thread.join() *)
  | M60                    (* self.play_thread = None *)
  | M63 (wav_data : wav).  (* self.queue.put(wav_data) *)

Definition fresh_thread : thread := Thread L33 0.

(** Lines 53-54: a new thread, started at the head of [play_audio]. *)
Definition spawn (s : state) : state :=
  set_threads (threads s ++ [fresh_thread])
    (set_play_thread (Some (length (threads s))) s).

(** One statement of the caller.  [None]: no statement to run ([Idle]) or
    blocked in [join] on a live thread. *)
Definition main_step (m : mpc) (s : state) : option (mpc * state) :=
  match m with
  | Idle => None
  | M49 wav_data => Some (M50 wav_data, set_stop_flag false s)
  | M50 wav_data => Some (M52, set_queue (queue s ++ [wav_data]) s)
  | M52 => Some (if thread_alive s then Idle else M53, s)
  | M53 => Some (Idle, spawn s)
  | M57 => Some (if thread_alive s then M58 else Idle, s)
  | M58 => Some (M59, set_stop_flag true s)
  | M59 => if thread_alive s then None else Some (M60, s)
  | M60 => Some (Idle, set_play_thread None s)
  | M63 wav_data => Some (Idle, set_queue (queue s ++ [wav_data]) s)
  end.

Definition config : Type := mpc * state.

(** Interleaving of the caller and the worker threads. *)
Inductive step : config → config → Prop :=
  | step_call_start wav_data s :
      step (Idle, s) (M49 wav_data, s)
  | step_call_stop s :
      step (Idle, s) (M57, s)
  | step_call_add wav_data s :
      step (Idle, s) (M63 wav_data, s)
  | step_main m s m' s' :
      main_step m s = Some (m', s') →
      step (m, s) (m', s')
  | step_thread m s i :
      i < length (threads s) →
      step (m, s) (m, thread_step i s).

Definition reachable (c : config) : Prop := rtc step (Idle, init) c.

(** [start_playing], run without interruption by the worker. *)
Definition start_playing (wav_data : wav) (self : state) : state :=
  let self := set_stop_flag false self in
  let self := set_queue (queue self ++ [wav_data]) self in
  if thread_alive self then self else spawn self.

(** [add_to_queue] *)
Definition add_to_queue (wav_data : wav) (self : state) : state :=
  set_queue (queue self ++ [wav_data]) self.

(** [self.play_thread.join()]: the caller is blocked while the joined
    thread runs; [None] if it is still alive after [fuel] steps. *)
Fixpoint join (fuel : nat) (self : state) : option state :=
  if thread_alive self then
    match fuel, play_thread self with
    | S fuel', Some i => join fuel' (thread_step i self)
    | _, _ => None
    end
  else Some self.

(** [stop_playing] *)
Definition stop_playing (fuel : nat) (self : state) : option state :=
  if thread_alive self then
    self' ← join fuel (set_stop_flag true self);
    Some (set_play_thread None self')
  else Some self.

(** Number of live threads. *)
Definition live (s : state) : nat :=
  length (filter (λ t, is_alive t = true) (threads s)).

(** No play object sounds. *)
Definition silent (s : state) : Prop :=
  Forall (λ t, play_obj t = 0) (threads s).

(** The buffer a thread has taken from the queue and not yet decoded. *)
Definition in_hand (t : thread) : list wav :=
  match pc t with
  | L39 wav_data => [wav_data]
  | _ => []
  end.

(** Buffers a worker still has to decode: the one in hand of the thread
    [play_thread] refers to, then the queue. *)
Definition backlog (s : state) : list wav :=
  match play_thread s with
  | Some i =>
      match threads s !! i with
      | Some t => in_hand t ++ queue s
      | None => queue s
      end
  | None => queue s
  end.

(** What a worker that is told to stop leaves of the buffers [l] it still
    had to decode: the buffers behind the first one that does not decode,
    nothing if all decode. *)
Fixpoint left_over (l : list wav) : list wav :=
  match l with
  | [] => []
  | wav_data :: l' =>
      match from_wave_file wav_data with
      | Some _ => left_over l'
      | None => l'
      end
  end.

(** An upper bound on the steps a thread takes until it ends, once
    [stop_flag] is set and stays set, with [k] buffers queued. *)
Definition weight (k : nat) (t : thread) : nat :=
  match pc t with
  | L33 => 7 * k + 2
  | L33_empty => 7 * k + 1
  | L35 => match k with 0 => 3 | _ => 7 * k end
  | L39 _ => 7 * k + 6
  | L40 _ => 7 * k + 5
  | L42 => 7 * k + 4
  | L45 => 7 * k + 3
  | Returned | Raised => 0
  end.

(** Enough fuel for [join] in any state with [stop_flag] set. *)
Definition join_bound (s : state) : nat := 7 * length (queue s) + 6.

(** What holds in every reachable configuration. *)
Record inv (c : config) : Prop := Inv {
  inv_owner : ∀ i t,
    threads c.2 !! i = Some t → is_alive t = true → play_thread c.2 = Some i;
  inv_spawn : c.1 = M53 → Forall (λ t, is_alive t = false) (threads c.2);
  inv_joined : c.1 = M60 → Forall (λ t, is_alive t = false) (threads c.2);
  inv_clear : (∃ w, c.1 = M50 w) ∨ c.1 = M52 ∨ c.1 = M53 → stop_flag c.2 = false;
  inv_set : stop_flag c.2 = true →
    Exists (λ t, is_alive t = true) (threads c.2) → c.1 = M59;
  inv_quiet : Forall (λ t, pc t ≠ L42 → pc t ≠ L45 → play_obj t = 0) (threads c.2);
  inv_stop : Forall (λ t, pc t = L45 → 0 < play_obj t → stop_flag c.2 = true)
               (threads c.2);
  inv_exit : Forall (λ t, pc t = L33_empty → stop_flag c.2 = true) (threads c.2)
}.

End WithDecoder.

End Player.

(** ** The frame dispatcher [receive_message] *)

Module Dispatch.

Import Player.

(** The line terminator ["\n"]. *)
Definition nl : string := String "010"%char EmptyString.

(** ['[end]\n'] (line 125) and ['[+]'] (line 127). *)
Definition turn_end : string := ("[end]" ++ nl)%string.
Definition interrupt : string := "[+]"%string.

(** [message.startswith('[+]')] *)
Definition startswith (p s : string) : bool := String.prefix p s.

(** What [websocket.recv()] hands back: a [str], a [bytes], or (the last
    [else] of the loop) something that is neither. *)
Inductive message :=
  | Text (s : string)
  | Binary (b : list Byte.byte)
  | Neither.

(** Outcome of [await websocket.recv()] (lines 115-122): a message, or
    one of the exceptions the two handlers catch, kept as the text [print]
    shows for it. *)
Inductive recv :=
  | Message (m : message)
  | ConnectionClosedError (e : string)
  | OtherException (e : string).

(** The frame without its first [length p] characters: what the
    specification calls the remainder of the frame after the prefix. *)
Definition after_prefix (p s : string) : string :=
  substring (String.length p) (String.length s - String.length p) s.

Section WithCodec.

Context {wav : Type}.
Context (from_wave_file : wav → option nat).

(** Lines 135-138, [AudioSegment.from_mp3] and [export] to WAV: [None]
    when one of them raises. *)
Context (to_wav : list Byte.byte → option wav).

(** The calls one loop iteration makes, in program order.  Every call is
    synchronous: it has returned before the next one is made. *)
Inductive action :=
  | Print (s : string)
  | StopPlaying
  | StartPlaying (wav_data : wav).

(** How the iteration ends: next iteration, [break], or an exception that
    leaves [receive_message]. *)
Inductive control := Continue | Break | Propagate.

(** One iteration of the loop of [receive_message] (lines 114-143). *)
Definition dispatch (r : recv) : list action * control :=
  match r with
  | ConnectionClosedError e =>
      ([Print ("Connection closed unexpectedly: " ++ " " ++ e ++ nl)%string], Break)
  | OtherException e =>
      ([Print ("An error occurred: " ++ " " ++ e ++ nl)%string], Break)
  | Message (Text message) =>
      if (message =? turn_end)%string then
        ([Print (nl ++ "You: ")%string], Continue)
      else if startswith interrupt message then
        ([StopPlaying; Print (message ++ nl)%string], Continue)
      else
        ([Print message], Continue)
  | Message (Binary message) =>
      match to_wav message with
      | Some wav_data => ([StartPlaying wav_data], Continue)
      | None => ([], Propagate)
      end
  | Message Neither =>
      ([Print ("Unexpected message" ++ nl)%string], Break)
  end.

(** The text the actions write to the console. *)
Fixpoint displayed (acts : list action) : string :=
  match acts with
  | [] => EmptyString
  | Print s :: acts' => (s ++ displayed acts')%string
  | _ :: acts' => displayed acts'
  end.

(** Does an action touch the player? *)
Definition is_playback (a : action) : bool :=
  match a with
  | Print _ => false
  | StopPlaying | StartPlaying _ => true
  end.

(** Observable events, in the order they happen. *)
Inductive event :=
  | Displayed (s : string)
  | StopCalled
  | StopReturned
  | StartCalled (wav_data : wav)
  | StartReturned.

(** The console, the global [audio_player], and the history of events. *)
Record world := World {
  console : string;
  audio_player : @state wav;
  history : list event
}.

(** Run one action.  [None]: [stop_playing] has not returned within
    [fuel] steps of the worker. *)
Definition exec (fuel : nat) (a : action) (w : world) : option world :=
  match a with
  | Print s =>
      Some (World (console w ++ s)%string (audio_player w)
                  (history w ++ [Displayed s]))
  | StopPlaying =>
      p ← stop_playing from_wave_file fuel (audio_player w);
      Some (World (console w) p (history w ++ [StopCalled; StopReturned]))
  | StartPlaying wav_data =>
      Some (World (console w) (start_playing wav_data (audio_player w))
                  (history w ++ [StartCalled wav_data; StartReturned]))
  end.

Fixpoint exec_all (fuel : nat) (acts : list action) (w : world) : option world :=
  match acts with
  | [] => Some w
  | a :: acts' => w' ← exec fuel a w; exec_all fuel acts' w'
  end.

(** How a run of [receive_message] stands: returned after [break], left by
    an exception, or suspended in [recv] for the next frame. *)
Inductive outcome := Done | Failed | Waiting.

(** [receive_message] on the frames [inbound], in arrival order. *)
Fixpoint receive_message (fuel : nat) (inbound : list recv) (w : world)
  : option (world * outcome) :=
  match inbound with
  | [] => Some (w, Waiting)
  | r :: inbound' =>
      let '(acts, c) := dispatch r in
      w' ← exec_all fuel acts w;
      match c with
      | Continue => receive_message fuel inbound' w'
      | Break => Some (w', Done)
      | Propagate => Some (w', Failed)
      end
  end.

End WithCodec.

End Dispatch.

(** ** The session [start_client] *)

Module Session.

(** [str.lower()] on the ASCII letters; other bytes are kept. *)
Definition lower_ascii (c : ascii) : ascii :=
  let n := nat_of_ascii c in
  if (65 <=? n) && (n <=? 90) then ascii_of_nat (n + 32) else c.

Fixpoint lower (s : string) : string :=
  match s with
  | EmptyString => EmptyString
  | String c s' => String (lower_ascii c) (lower s')
  end.

(** The coroutine behind [send_task]. *)
Inductive producer :=
  | handle_audio (device_id : Z)
  | handle_text.

(** A task made by [asyncio.create_task]. *)
Inductive task :=
  | send_task (p : producer)
  | receive_task.

Definition is_producer (t : task) : bool :=
  match t with
  | send_task _ => true
  | receive_task => false
  end.

(** Lines 155-162.  [device] is the outcome of [get_input_device_id()],
    [None] when it raises; the result is the list of tasks created, in
    creation order, [None] when the exception leaves [start_client]. *)
Definition create_tasks (mode : string) (device : option Z) : option (list task) :=
  if (lower mode =? "a")%string then
    device_id ← device;
    Some [send_task (handle_audio device_id); receive_task]
  else
    Some [send_task handle_text; receive_task].

(** How a task or future ends. *)
Inductive finish :=
  | Returns
  | Raises (e : string)
  | IsCancelled.

(** State of a task or future. *)
Inductive status :=
  | Pending
  | Finished (f : finish).

Definition done (s : status) : bool :=
  match s with
  | Pending => false
  | Finished _ => true
  end.

Inductive child := Receive | Send.

(** [await asyncio.gather(receive_task, send_task)] (line 163): the two
    children, whether [cancel()] was called on each, the count of finished
    children and the outer future [start_client] awaits. *)
Record gather := Gather {
  receive_status : status;
  send_status : status;
  receive_cancel : bool;
  send_cancel : bool;
  nfinished : nat;
  outer : status
}.

Definition gather_start : gather :=
  Gather Pending Pending false false 0 Pending.

(** The callback [gather] attaches to each child, run when the child [c]
    ends with [f] ([return_exceptions] is false): the first exception or
    cancellation completes the outer future at once, a result completes it
    only when it is the last child.  The callback makes no call on the
    sibling. *)
Definition done_callback (c : child) (f : finish) (g : gather) : gather :=
  let n := S (nfinished g) in
  let o :=
    if done (outer g) then outer g
    else match f with
         | IsCancelled => Finished IsCancelled
         | Raises e => Finished (Raises e)
         | Returns => if n =? 2 then Finished Returns else outer g
         end in
  match c with
  | Receive =>
      Gather (Finished f) (send_status g) (receive_cancel g) (send_cancel g) n o
  | Send =>
      Gather (receive_status g) (Finished f) (receive_cancel g) (send_cancel g) n o
  end.

(** How a run of [receive_message] ends its task: [None] while it is
    suspended in [recv]. *)
Definition task_finish (o : Dispatch.outcome) : option finish :=
  match o with
  | Dispatch.Done => Some Returns
  | Dispatch.Failed => Some (Raises "exception in receive_message")
  | Dispatch.Waiting => None
  end.

(** The children ending one after the other, each at most once. *)
Fixpoint run (evs : list (child * finish)) (g : gather) : gather :=
  match evs with
  | [] => g
  | (c, f) :: evs' => run evs' (done_callback c f g)
  end.

Definition sibling (c : child) : child :=
  match c with
  | Receive => Send
  | Send => Receive
  end.

Definition status_of (c : child) (g : gather) : status :=
  match c with
  | Receive => receive_status g
  | Send => send_status g
  end.

Definition cancel_of (c : child) (g : gather) : bool :=
  match c with
  | Receive => receive_cancel g
  | Send => send_cancel g
  end.

End Session.

(** ** Buffers to run the model on *)

Module Fixture.

Import Player.

(** The audio libraries are outside the program.  To run the model, a
    buffer is a byte string; the empty one is not a readable WAV file, any
    other plays for as many polls as it has bytes. *)
Definition from_wave_file (wav_data : list Byte.byte) : option nat :=
  match wav_data with
  | [] => None
  | _ :: _ => Some (length wav_data)
  end.

(** Transcoding keeps the bytes. *)
Definition to_wav (message : list Byte.byte) : option (list Byte.byte) :=
  Some message.

Definition good : list Byte.byte := [Byte.x52; Byte.x49].
Definition corrupt : list Byte.byte := [].

(** [start_playing(good)] on a new player, before the worker has run. *)
Definition started : @state (list Byte.byte) := start_playing good init.

(** Inside that first [start_playing(good)], about to run lines 53-54. *)
Definition spawning : @config (list Byte.byte) :=
  (M53, set_queue [good] (set_stop_flag false init)).

(** Five steps of the worker later: [good] was taken and decoded, it is
    sounding, the worker polls [is_playing()] at line 42. *)
Definition playing : @state (list Byte.byte) :=
  Nat.iter 5 (thread_step from_wave_file 0) started.

(** Three more steps: [good] was played to its end, the worker is back at
    line 33, the queue is empty, no stop was requested. *)
Definition drained : @state (list Byte.byte) :=
  Nat.iter 3 (thread_step from_wave_file 0) playing.

(** While [good] is sounding: [start_playing(corrupt)], then
    [start_playing(good)]. *)
Definition poisoned : @state (list Byte.byte) :=
  start_playing good (start_playing corrupt playing).

(** Five steps of the worker later it holds [corrupt], about to decode. *)
Definition decoding : @state (list Byte.byte) :=
  Nat.iter 5 (thread_step from_wave_file 0) poisoned.

End Fixture.

(** ** Observing a worker that runs undisturbed *)

Module Observe.

Import Player.

Section WithDecoder.

Context {wav : Type}.
Context (from_wave_file : wav → option nat).

(** [fuel] steps of one thread while the caller does nothing: the flag
    stays as it is and only this thread touches the queue. *)
Fixpoint run (fuel : nat) (flag : bool) (q : list wav) (t : thread)
  : list wav * thread :=
  match fuel with
  | 0 => (q, t)
  | S fuel' =>
      let '(q', t') := play_audio_step from_wave_file flag q t in
      run fuel' flag q' t'
  end.

(** The buffer a step takes from the queue: the step is [get_nowait] at
    line 35 and it did not raise [queue.Empty]. *)
Definition got (t t' : @thread wav) : list wav :=
  match pc t, pc t' with
  | L35, L39 wav_data => [wav_data]
  | _, _ => []
  end.

(** The buffers the thread takes during those [fuel] steps, in the order
    it takes them. *)
Fixpoint taken (fuel : nat) (flag : bool) (q : list wav) (t : thread)
  : list wav :=
  match fuel with
  | 0 => []
  | S fuel' =>
      let '(q', t') := play_audio_step from_wave_file flag q t in
      got t t' ++ taken fuel' flag q' t'
  end.

(** Steps the worker needs, with no stop requested, to take, decode and
    play to the end every buffer of [q]: six steps and one per poll. *)
Fixpoint play_time (q : list wav) : nat :=
  match q with
  | [] => 0
  | wav_data :: q' =>
      match from_wave_file wav_data with
      | Some wave_obj => wave_obj + 6 + play_time q'
      | None => 0
      end
  end.

(** Number of threads whose play object sounds. *)
Definition sounding (s : @state wav) : nat :=
  length (filter (λ t, 0 < play_obj t) (threads s)).

End WithDecoder.

End Observe.

(** ** What the frames alone decide *)

Module Console.

Import Dispatch.

Section WithCodec.

Context {wav : Type}.
Context (to_wav : list Byte.byte → option wav).

(** The text [receive_message] prints for the frames [inbound], read off
    the frames alone: every frame up to and including the first one that
    ends the loop. *)
Fixpoint printed (inbound : list recv) : string :=
  match inbound with
  | [] => EmptyString
  | r :: inbound' =>
      let '(acts, c) := dispatch to_wav r in
      match c with
      | Continue => (displayed acts ++ printed inbound')%string
      | Break | Propagate => displayed acts
      end
  end.

End WithCodec.

End Console.

(** ** The producers [handle_text] and [handle_audio] *)

Module Producer.

Import Dispatch.

(** What a producer does, in the order it does it. *)
Inductive event (frame : Type) :=
  | Shown (s : string)        (* print(s, end="") *)
  | Sent (f : frame)          (* await websocket.send(f) returned *)
  | Slept (seconds : nat).    (* await asyncio.sleep(seconds) *)

Arguments Shown {frame} s.
Arguments Sent {frame} f.
Arguments Slept {frame} seconds.

(** What [await ainput()] yields: a line, or [EOFError] at the end of the
    input. *)
Inductive keyboard :=
  | Line (message : string)
  | EndOfInput.

(** The loop of [handle_text] (lines 108-110).  [accepts] is the number of
    calls of [websocket.send] the connection still takes; the next one
    raises.  [Waiting]: suspended in [ainput] for a line not yet typed. *)
Fixpoint text_loop (accepts : nat) (stdin : list keyboard) {struct stdin}
  : list (event string) * outcome :=
  match stdin with
  | [] => ([], Waiting)
  | EndOfInput :: _ => ([], Failed)
  | Line message :: stdin' =>
      match accepts with
      | 0 => ([], Failed)
      | S accepts' =>
          let '(tr, o) := text_loop accepts' stdin' in
          (Sent message :: tr, o)
      end
  end.

(** [handle_text] (lines 106-110). *)
Definition handle_text (accepts : nat) (stdin : list keyboard)
  : list (event string) * outcome :=
  let '(tr, o) := text_loop accepts stdin in
  (Shown "You: " :: tr, o).

(** The loop of [handle_audio] (lines 98-103).  [captures] are the
    [frame_data] of the phrases [recognizer.listen] returns, one per
    call; [Waiting]: suspended in the executor for a phrase not yet
    spoken. *)
Fixpoint audio_loop (accepts : nat) (captures : list (list Byte.byte))
    {struct captures} : list (event (list Byte.byte)) * outcome :=
  match captures with
  | [] => ([Shown "[*]"], Waiting)
  | frame_data :: captures' =>
      match accepts with
      | 0 => ([Shown "[*]"], Failed)
      | S accepts' =>
          let '(tr, o) := audio_loop accepts' captures' in
          (Shown "[*]" :: Sent frame_data :: Shown "[-]" :: Slept 2 :: tr, o)
      end
  end.

(** The frames sent, in order. *)
Fixpoint frames {frame : Type} (tr : list (event frame)) : list frame :=
  match tr with
  | [] => []
  | Sent f :: tr' => f :: frames tr'
  | _ :: tr' => frames tr'
  end.

(** The text printed. *)
Fixpoint shown {frame : Type} (tr : list (event frame)) : string :=
  match tr with
  | [] => EmptyString
  | Shown s :: tr' => (s ++ shown tr')%string
  | _ :: tr' => shown tr'
  end.

(** The seconds slept, sleep by sleep. *)
Fixpoint sleeps {frame : Type} (tr : list (event frame)) : list nat :=
  match tr with
  | [] => []
  | Slept n :: tr' => n :: sleeps tr'
  | _ :: tr' => sleeps tr'
  end.

(** The lines typed before the end of the input. *)
Fixpoint typed (stdin : list keyboard) : list string :=
  match stdin with
  | Line message :: stdin' => message :: typed stdin'
  | _ => []
  end.

(** ['[*][-]'] repeated [k] times. *)
Fixpoint marks (k : nat) : string :=
  match k with
  | 0 => EmptyString
  | S k' => ("[*][-]" ++ marks k')%string
  end.

End Producer.

(** ** Setting up the session: lines 69-79 and 146-163 *)

Module Setup.

Import Dispatch Session.

(** [str(n)] for an [int] that is not negative: its decimal digits. *)
Definition digit (n : nat) : ascii := ascii_of_nat (48 + n).

Fixpoint digits (fuel n : nat) (acc : string) : string :=
  match fuel with
  | 0 => acc
  | S fuel' =>
      let acc' := String (digit (n mod 10)) acc in
      if n / 10 =? 0 then acc' else digits fuel' (n / 10) acc'
  end.

Definition str (n : nat) : string := digits (S n) n EmptyString.

(** [int(s)] for a string [s] of decimal digits, on top of the value
    [acc] of the digits read so far. *)
Fixpoint number (s : string) (acc : nat) : nat :=
  match s with
  | EmptyString => acc
  | String c s' => number s' (10 * acc + (nat_of_ascii c - 48))
  end.

(** [f"ws://localhost:8000/ws/{client_id}"] (line 147); [main] draws
    [client_id] with [random.randint(0, 1000)]. *)
Definition uri (client_id : nat) : string :=
  ("ws://localhost:8000/ws/" ++ str client_id)%string.

(** What [get_device_info_by_index] tells about a device, as far as line
    71-73 read it; [maxInputChannels] is [None] when the key is missing. *)
Record device_info := DeviceInfo {
  name : string;
  maxInputChannels : option Z
}.

(** Truth value of [info.get('maxInputChannels')]. *)
Definition has_input (d : device_info) : bool :=
  match maxInputChannels d with
  | Some n => negb (n =? 0)%Z
  | None => false
  end.

(** The list [devices] of lines 71-73: index and name of every device
    with input channels, [infos] being the devices by index. *)
Definition devices (infos : list device_info) : list (nat * string) :=
  omap (λ '(i, d), if has_input d then Some (i, name d) else None)
       (imap pair infos).

(** Lines 75-77. *)
Definition device_lines (infos : list device_info) : string :=
  ("Available devices:" ++ nl ++
   foldr (λ '(id, n) rest,
            "Device id " ++ str id ++ " - " ++ n ++ nl ++ rest)
         EmptyString (devices infos))%string.

(** What the session does at the connection and the console, in order. *)
Inductive io :=
  | Connected (uri : string)
  | Received (message : string)
  | Printed (s : string)
  | Asked (prompt : string)
  | Sent (message : string)
  | Created (t : task)
  | Gathered.

(** [start_client] up to the [await] of line 163.  [welcome] is the first
    frame of the server, [companion] and [mode] are the operator's
    answers, [infos] are the audio devices and [device] is what
    [int(input(...))] of line 79 yields, [None] when it raises. *)
Definition start_client (client_id : nat) (welcome companion mode : string)
    (infos : list device_info) (device : option Z) : list io :=
  [Connected (uri client_id);
   Printed ("Client #" ++ str client_id ++ " connected to server" ++ nl);
   Received welcome;
   Printed (welcome ++ nl);
   Asked "Select companion: ";
   Sent companion;
   Asked "Select mode (a: audio, t: text): "] ++
  (if (lower mode =? "a")%string then
     [Printed (device_lines infos); Asked "Please select device id: "] ++
     match device with
     | Some device_id =>
         [Created (send_task (handle_audio device_id));
          Created receive_task; Gathered]
     | None => []
     end
   else
     [Created (send_task handle_text); Created receive_task; Gathered]).

(** The frames sent, and the tasks created, in order. *)
Definition sent (tr : list io) : list string :=
  omap (λ e, match e with Sent m => Some m | _ => None end) tr.

Definition created (tr : list io) : list task :=
  omap (λ e, match e with Created t => Some t | _ => None end) tr.

End Setup.

(** ** More inputs to run the model on *)

Module Bench.

Import Player Dispatch.

(** A console with nothing on it, and the player of [Fixture.playing]. *)
Definition world : @world (list Byte.byte) :=
  World EmptyString Fixture.playing [].

(** A reply of the server: an interrupt, a word, audio, the end of the
    turn. *)
Definition reply : list recv :=
  [Message (Text "[+]Hi"); Message (Text "Hello");
   Message (Binary Fixture.good); Message (Text turn_end)].

End Bench.

(** * Properties of the player *)

Section PlayerFacts.

Import Player.

Context {wav : Type}.
Context (from_wave_file : wav → option nat).

Implicit Types (s : @state wav) (t : @thread wav) (q : list wav).
Implicit Types (c : @config wav) (m : @mpc wav).

Abbreviation pstep := (play_audio_step from_wave_file).
Abbreviation tstep := (thread_step from_wave_file).

(** *** One step of a thread *)

Lemma dead_stays flag q t :
  is_alive t = false → pstep flag q t = (q, t).
Proof.
  destruct t as [p o]; destruct p; simpl; intros H; try discriminate H;
    reflexivity.
Qed.

Lemma alive_before flag q t :
  is_alive (pstep flag q t).2 = true → is_alive t = true.
Proof.
  destruct (is_alive t) eqn:E; [done|].
  rewrite (dead_stays flag q t E). simpl. congruence.
Qed.

Lemma tstep_play_thread i s : play_thread (tstep i s) = play_thread s.
Proof.
  unfold thread_step. destruct (threads s !! i); [|done].
  by destruct (pstep _ _ _).
Qed.

Lemma tstep_stop_flag i s : stop_flag (tstep i s) = stop_flag s.
Proof.
  unfold thread_step. destruct (threads s !! i); [|done].
  by destruct (pstep _ _ _).
Qed.

Lemma tstep_threads i s t :
  threads s !! i = Some t →
  threads (tstep i s) = <[i := (pstep (stop_flag s) (queue s) t).2]> (threads s).
Proof.
  intros H. unfold thread_step. rewrite H.
  by destruct (pstep _ _ _).
Qed.

Lemma tstep_queue i s t :
  threads s !! i = Some t →
  queue (tstep i s) = (pstep (stop_flag s) (queue s) t).1.
Proof.
  intros H. unfold thread_step. rewrite H.
  by destruct (pstep _ _ _).
Qed.

Lemma tstep_length i s : length (threads (tstep i s)) = length (threads s).
Proof.
  destruct (threads s !! i) as [t|] eqn:E.
  - by rewrite (tstep_threads _ _ _ E), length_insert.
  - unfold thread_step. by rewrite E.
Qed.

Lemma tstep_lookup i j s t' :
  threads (tstep i s) !! j = Some t' →
  (i ≠ j ∧ threads s !! j = Some t') ∨
  (i = j ∧ ∃ t, threads s !! i = Some t ∧ t' = (pstep (stop_flag s) (queue s) t).2).
Proof.
  destruct (threads s !! i) as [t|] eqn:E.
  - rewrite (tstep_threads _ _ _ E).
    intros [[-> [<- _]]|[Hne H]]%list_lookup_insert_Some; [right|left]; eauto.
  - unfold thread_step. rewrite E. intros H. left. split; [|done].
    intros ->. congruence.
Qed.

Lemma tstep_elem s i t' :
  t' ∈ threads (tstep i s) →
  t' ∈ threads s ∨ ∃ t, t ∈ threads s ∧ t' = (pstep (stop_flag s) (queue s) t).2.
Proof.
  intros [j Hj]%list_elem_of_lookup.
  apply tstep_lookup in Hj as [[_ H]|[_ (t & H & ->)]].
  - left. eapply list_elem_of_lookup_2, H.
  - right. exists t. split; [|done]. eapply list_elem_of_lookup_2, H.
Qed.

(** *** The invariant *)

Lemma pstep_quiet flag q t :
  (pc t ≠ L42 → pc t ≠ L45 → play_obj t = 0) →
  (pc t = L45 → 0 < play_obj t → flag = true) →
  pc (pstep flag q t).2 ≠ L42 → pc (pstep flag q t).2 ≠ L45 →
  play_obj (pstep flag q t).2 = 0.
Proof.
  destruct t as [p o]; unfold play_audio_step; simpl. intros Hq Hs.
  destruct p; simpl; repeat case_match; simpl; intros;
    try congruence; try (apply Hq; congruence).
  destruct o; [done|]. discriminate Hs; [done|lia].
Qed.

Lemma pstep_stop flag q t :
  (pc t = L45 → 0 < play_obj t → flag = true) →
  pc (pstep flag q t).2 = L45 → 0 < play_obj (pstep flag q t).2 →
  flag = true.
Proof.
  destruct t as [p o]; unfold play_audio_step; simpl. intros Hs.
  destruct p; simpl; repeat case_match; simpl; intros;
    try congruence; try (apply Hs; congruence).
  destruct flag; [done|]. rewrite andb_true_r in *.
  match goal with H : (0 <? o) = false |- _ => apply Nat.ltb_nlt in H end. lia.
Qed.

Lemma pstep_exit flag q t :
  (pc t = L33_empty → flag = true) →
  pc (pstep flag q t).2 = L33_empty → flag = true.
Proof.
  destruct t as [p o]; unfold play_audio_step; cbn [pc play_obj]. intros Hs.
  destruct p; cbn [pc snd]; try done.
  - by destruct flag.
  - by destruct q.
  - by destruct q.
  - by destruct (from_wave_file wav_data).
  - by destruct (_ && _).
Qed.

Lemma owner_dead s :
  (∀ i t, threads s !! i = Some t → is_alive t = true → play_thread s = Some i) →
  thread_alive s = false →
  Forall (λ t, is_alive t = false) (threads s).
Proof.
  intros Ho Hd. apply Forall_lookup. intros i t Hi.
  destruct (is_alive t) eqn:E; [|done].
  unfold thread_alive in Hd. rewrite (Ho i t Hi E), Hi in Hd. congruence.
Qed.

Lemma all_dead_not_alive (l : list (@thread wav)) :
  Forall (λ t, is_alive t = false) l → Exists (λ t, is_alive t = true) l → False.
Proof.
  intros Hd (t & Ht & Ha)%Exists_exists.
  apply (proj1 (Forall_forall _ _) Hd) in Ht. congruence.
Qed.

Lemma inv_init : inv (Idle, @init wav).
Proof.
  split; simpl; try done.
Qed.

Lemma inv_thread m s i : inv (m, s) → inv (m, tstep i s).
Proof.
  intros [Ho Hsp Hj Hc Hset Hq Hst Hex]; simpl in *.
  assert (Hback : Exists (λ t, is_alive t = true) (threads (tstep i s)) →
                  Exists (λ t, is_alive t = true) (threads s)).
  { intros (t' & [Ht|(t & Ht & ->)]%tstep_elem & Ha)%Exists_exists;
      apply Exists_exists; eauto using alive_before. }
  assert (Hdead : Forall (λ t, is_alive t = false) (threads s) →
                  Forall (λ t, is_alive t = false) (threads (tstep i s))).
  { intros Hd. apply Forall_forall. intros t' Ht'.
    destruct (is_alive t') eqn:E; [|done]. exfalso.
    apply (all_dead_not_alive _ Hd), Hback, Exists_exists. eauto. }
  split; simpl; rewrite ?tstep_play_thread, ?tstep_stop_flag; auto.
  - intros j t' [[_ H]|[<- (t & H & ->)]]%tstep_lookup Ha; eauto using alive_before.
  - apply Forall_forall. intros t' [Ht|(t & Ht & ->)]%tstep_elem.
    + by apply (proj1 (Forall_forall _ _) Hq).
    + apply pstep_quiet.
      * by apply (proj1 (Forall_forall _ _) Hq).
      * by apply (proj1 (Forall_forall _ _) Hst).
  - apply Forall_forall. intros t' [Ht|(t & Ht & ->)]%tstep_elem.
    + by apply (proj1 (Forall_forall _ _) Hst).
    + apply pstep_stop. by apply (proj1 (Forall_forall _ _) Hst).
  - apply Forall_forall. intros t' [Ht|(t & Ht & ->)]%tstep_elem.
    + by apply (proj1 (Forall_forall _ _) Hex).
    + apply pstep_exit. by apply (proj1 (Forall_forall _ _) Hex).
Qed.

Lemma inv_call m s :
  m = M57 ∨ (∃ w, m = M49 w) ∨ (∃ w, m = M63 w) →
  inv (Idle, s) → inv (m, s).
Proof.
  intros Hm [Ho Hsp Hj Hc Hset Hq Hst Hex]; simpl in *.
  split; simpl; auto.
  - intros ->. destruct Hm as [|[[? ?]|[? ?]]]; done.
  - intros ->. destruct Hm as [|[[? ?]|[? ?]]]; done.
  - intros [[? ->]|[->| ->]]; destruct Hm as [|[[? ?]|[? ?]]]; done.
  - intros Hf He. by specialize (Hset Hf He).
Qed.

Lemma inv_main m s m' s' :
  main_step m s = Some (m', s') → inv (m, s) → inv (m', s').
Proof.
  intros Hm [Ho Hsp Hj Hc Hset Hq Hst Hex]; simpl in *.
  destruct m; simpl in Hm; try discriminate Hm;
    try (match type of Hm with context [thread_alive s] =>
           destruct (thread_alive s) eqn:Ha; try discriminate Hm end);
    injection Hm as ? ?; subst m' s';
    split; simpl; auto; try done;
    try (intros [[? ?]|[?|?]]; done);
    try (intros _; apply Hc; by eauto);
    try (intros Hf He; by specialize (Hset Hf He));
    try (intros Hf; rewrite Hc in Hf; [done|by eauto]);
    try (intros _; by apply owner_dead);
    try (apply Forall_forall; done).
  - (* line 49 *)
    apply Forall_forall. intros t Ht Hpc Hpo.
    assert (stop_flag s = true) as Hf
      by (by apply (proj1 (Forall_forall _ _) Hst t Ht)).
    enough (M49 wav_data = M59) by done.
    apply Hset; [done|]. apply Exists_exists. exists t. split; [done|].
    unfold is_alive. by rewrite Hpc.
  - apply Forall_forall. intros t Ht Hpc.
    assert (stop_flag s = true) as Hf
      by (by apply (proj1 (Forall_forall _ _) Hex t Ht)).
    enough (M49 wav_data = M59) by done.
    apply Hset; [done|]. apply Exists_exists. exists t. split; [done|].
    unfold is_alive. by rewrite Hpc.
  - (* lines 53-54 *)
    specialize (Hsp eq_refl).
    intros i t [Hi|[Hle Ht]]%lookup_app_Some Hal.
    + apply (proj1 (Forall_lookup _ _) Hsp) in Hi. congruence.
    + apply lookup_lt_Some in Ht. simpl in Ht. f_equal. lia.
  - apply Forall_app. split; [done|]. by repeat constructor.
  - apply Forall_app. split; [done|]. by repeat constructor.
  - apply Forall_app. split; [done|]. by repeat constructor.
  - (* line 59 *)
    intros _ He. destruct (all_dead_not_alive _ (owner_dead _ Ho Ha) He).
  - (* line 60 *)
    specialize (Hj eq_refl). intros i t Hi Hal.
    apply (proj1 (Forall_lookup _ _) Hj) in Hi. congruence.
Qed.

Lemma inv_step c c' : step from_wave_file c c' → inv c → inv c'.
Proof.
  destruct 1; eauto 6 using inv_call, inv_main, inv_thread.
Qed.

Lemma reachable_inv c : reachable from_wave_file c → inv c.
Proof.
  unfold reachable. intros H.
  eapply (rtc_ind_r (λ c, inv c)); [apply inv_init| |exact H].
  intros c1 c2 _ Hs Hi. by eapply inv_step.
Qed.

(** *** [join] returns *)

Lemma weight_alive k t : is_alive t = true → 0 < weight k t.
Proof.
  destruct t as [p o]; destruct p; unfold weight, is_alive; simpl;
    try discriminate; try lia.
  destruct k; lia.
Qed.

Lemma weight_bound k t : weight k t ≤ 7 * k + 6.
Proof.
  destruct t as [p o]; destruct p; unfold weight; simpl; try lia.
  destruct k; lia.
Qed.

Lemma weight_step q t :
  is_alive t = true →
  weight (length (pstep true q t).1) (pstep true q t).2 < weight (length q) t.
Proof.
  destruct t as [p o]; destruct p; intros Ha; try discriminate Ha;
    unfold play_audio_step; cbn [pc play_obj negb].
  - cbn. lia.
  - destruct q; cbn; lia.
  - destruct q as [|w [|w' q]]; cbn; lia.
  - destruct (from_wave_file wav_data); cbn; lia.
  - cbn. lia.
  - rewrite andb_false_r. cbn. lia.
  - cbn. lia.
Qed.

(** A thread that ends by returning saw an empty queue. *)
Lemma pstep_returned flag q t :
  is_alive t = true → pc (pstep flag q t).2 = Returned →
  pc t = L33_empty ∧ q = [] ∧ (pstep flag q t).1 = [].
Proof.
  destruct t as [p o]; destruct p; intros Ha; try discriminate Ha;
    unfold play_audio_step; cbn [pc play_obj].
  - by destruct flag.
  - by destruct q.
  - by destruct q.
  - by destruct (from_wave_file wav_data).
  - done.
  - by destruct (_ && _).
  - done.
Qed.

(** A thread that ends by an exception had an undecodable buffer in hand. *)
Lemma pstep_raised flag q t :
  is_alive t = true → pc (pstep flag q t).2 = Raised →
  ∃ w, in_hand t = [w] ∧ from_wave_file w = None.
Proof.
  destruct t as [p o]; destruct p; intros Ha; try discriminate Ha;
    unfold play_audio_step; cbn [pc play_obj].
  - by destruct flag.
  - by destruct q.
  - by destruct q.
  - destruct (from_wave_file wav_data) eqn:E; [done|]. eauto.
  - done.
  - by destruct (_ && _).
  - done.
Qed.

(** What a thread holds and what is queued only shrinks. *)
Lemma pstep_backlog flag q t w :
  w ∈ in_hand (pstep flag q t).2 ++ (pstep flag q t).1 →
  w ∈ in_hand t ++ q.
Proof.
  destruct t as [p o]; destruct p;
    unfold play_audio_step, in_hand; cbn [pc play_obj]; try done.
  - by destruct flag.
  - by destruct q.
  - by destruct q.
  - destruct (from_wave_file wav_data); cbn; set_solver.
  - by destruct (_ && _).
Qed.

Lemma thread_alive_lookup s i t :
  play_thread s = Some i → threads s !! i = Some t →
  thread_alive s = is_alive t.
Proof. intros Hp Ht. unfold thread_alive. by rewrite Hp, Ht. Qed.

Lemma join_dead fuel s : thread_alive s = false → join from_wave_file fuel s = Some s.
Proof. intros H. destruct fuel; simpl; by rewrite H. Qed.

Lemma join_Some_dead fuel s s' :
  join from_wave_file fuel s = Some s' → thread_alive s' = false.
Proof.
  revert s. induction fuel as [|fuel IH]; intros s; simpl;
    destruct (thread_alive s) eqn:E; try congruence.
  destruct (play_thread s); [|done]. apply IH.
Qed.

(** With [stop_flag] set, the joined thread ends within [weight] steps. *)
Lemma join_spec fuel s i t :
  stop_flag s = true → play_thread s = Some i → threads s !! i = Some t →
  weight (length (queue s)) t ≤ fuel →
  ∃ s' t',
    join from_wave_file fuel s = Some s' ∧
    play_thread s' = Some i ∧ stop_flag s' = true ∧
    threads s' = <[i := t']> (threads s) ∧
    is_alive t' = false ∧
    (is_alive t = true → pc t' = Returned → queue s' = []) ∧
    (is_alive t = true → pc t' = Raised →
       ∃ w, w ∈ in_hand t ++ queue s ∧ from_wave_file w = None).
Proof.
  revert s t. induction fuel as [|fuel IH]; intros s t Hf Hp Ht Hw.
  - destruct (is_alive t) eqn:Ha.
    { pose proof (weight_alive (length (queue s)) t Ha). lia. }
    exists s, t. rewrite join_dead by by rewrite (thread_alive_lookup s i t).
    rewrite list_insert_id by done. by repeat split.
  - destruct (is_alive t) eqn:Ha; cycle 1.
    { exists s, t. rewrite join_dead by by rewrite (thread_alive_lookup s i t).
      rewrite list_insert_id by done. by repeat split. }
    cbn [join]. rewrite (thread_alive_lookup s i t), Ha, Hp by done.
    pose proof (weight_step (queue s) t Ha) as Hlt.
    pose proof (tstep_threads i s t Ht) as Hts.
    pose proof (tstep_queue i s t Ht) as Hqs.
    rewrite Hf in Hts, Hqs.
    set (t1 := (pstep true (queue s) t).2) in *.
    assert (threads (tstep i s) !! i = Some t1) as Ht1.
    { rewrite Hts. apply list_lookup_insert_eq. by eapply lookup_lt_Some. }
    assert (play_thread (tstep i s) = Some i) as Hp1
      by by rewrite tstep_play_thread.
    assert (stop_flag (tstep i s) = true) as Hf1
      by by rewrite tstep_stop_flag.
    destruct (is_alive t1) eqn:Ha1.
    + destruct (IH (tstep i s) t1) as (s' & t' & Hj & Hp' & Hf' & Hth' & Hd' & Hr & He);
        [done|done|done|rewrite Hqs; lia|].
      exists s', t'. rewrite Hth', Hts, list_insert_insert_eq.
      repeat split; [done..| |]; intros _.
      * by apply Hr.
      * intros Hpc. destruct (He Ha1 Hpc) as (w & Hw1 & Hw2).
        exists w. split; [|done].
        rewrite Hqs in Hw1. by apply pstep_backlog in Hw1.
    + exists (tstep i s), t1.
      rewrite join_dead by by rewrite (thread_alive_lookup _ i t1).
      repeat split; [done..| |]; intros _ Hpc.
      * rewrite Hqs. by apply pstep_returned in Hpc as (_ & _ & ?).
      * apply pstep_raised in Hpc as (w & Hw1 & Hw2); [|done].
        exists w. split; [|done]. rewrite Hw1. set_solver.
Qed.

(** *** The functions run along [step] *)

Lemma join_steps fuel s s' m :
  join from_wave_file fuel s = Some s' →
  rtc (step from_wave_file) (m, s) (m, s').
Proof.
  revert s. induction fuel as [|fuel IH]; intros s; simpl;
    destruct (thread_alive s) eqn:E; try congruence;
    try (intros [= ->]; reflexivity).
  destruct (play_thread s) as [i|] eqn:Hp; [|done]. intros Hj.
  eapply rtc_l; [|by apply IH]. apply step_thread.
  unfold thread_alive in E. rewrite Hp in E.
  destruct (threads s !! i) eqn:Hi; [|done]. by eapply lookup_lt_Some.
Qed.

Lemma stop_playing_steps fuel s s' :
  stop_playing from_wave_file fuel s = Some s' →
  rtc (step from_wave_file) (Idle, s) (Idle, s').
Proof.
  unfold stop_playing. destruct (thread_alive s) eqn:E.
  - destruct (join _ _ _) as [s2|] eqn:Hj; [|done]. intros [= <-].
    eapply rtc_l; [apply step_call_stop|].
    eapply rtc_l; [apply step_main; simpl; by rewrite E|].
    eapply rtc_l; [by apply step_main|].
    etrans; [by eapply join_steps|].
    eapply rtc_l; [apply step_main; simpl;
                   by rewrite (join_Some_dead _ _ _ Hj)|].
    by apply rtc_once, step_main.
  - intros [= <-].
    eapply rtc_l; [apply step_call_stop|].
    apply rtc_once, step_main. simpl. by rewrite E.
Qed.

Lemma start_playing_steps w s :
  rtc (step from_wave_file) (Idle, s) (Idle, start_playing w s).
Proof.
  unfold start_playing.
  eapply rtc_l; [apply (step_call_start _ w)|].
  eapply rtc_l; [by apply step_main|].
  eapply rtc_l; [by apply step_main|].
  cbn [main_step]. destruct (thread_alive _) eqn:E.
  - apply rtc_once, step_main. cbn [main_step]. by rewrite E.
  - eapply rtc_l; [apply step_main; cbn [main_step]; by rewrite E|].
    by apply rtc_once, step_main.
Qed.

(** *** Live threads *)

Lemma live_zero s : live s = 0 ↔ Forall (λ t, is_alive t = false) (threads s).
Proof.
  unfold live. induction (threads s) as [|t l IH]; [done|].
  rewrite filter_cons, Forall_cons. destruct (decide (is_alive t = true)) as [E|E].
  - simpl. split; [lia|]. intros [? _]. congruence.
  - rewrite IH. apply not_true_is_false in E. tauto.
Qed.

Lemma no_alive_filter (l : list (@thread wav)) :
  Forall (λ t, is_alive t = false) l →
  filter (λ t, is_alive t = true) l = [].
Proof.
  induction 1 as [|t l Ht _ IH]; [done|].
  rewrite filter_cons_False; [done|congruence].
Qed.

Lemma owner_live (l : list (@thread wav)) (o : option nat) :
  (∀ i t, l !! i = Some t → is_alive t = true → o = Some i) →
  length (filter (λ t, is_alive t = true) l) ≤ 1.
Proof.
  revert o. induction l as [|t l IH]; intros o Ho; [simpl; lia|].
  rewrite filter_cons. destruct (decide (is_alive t = true)) as [E|E].
  - assert (o = Some 0) as -> by (by apply (Ho 0 t)).
    assert (filter (λ t, is_alive t = true) l = []) as ->; [|simpl; lia].
    apply no_alive_filter, Forall_lookup. intros j tj Hj.
    destruct (is_alive tj) eqn:Haj; [|done].
    by specialize (Ho (S j) tj Hj Haj).
  - apply (IH (pred <$> o)). intros j tj Hj Haj.
    by rewrite (Ho (S j) tj Hj Haj).
Qed.

Lemma idle_not_alive s :
  inv (Idle, s) → thread_alive s = false →
  live s = 0 ∧ silent s.
Proof.
  intros Hi Hd. pose proof (owner_dead s (inv_owner _ Hi) Hd) as Hall.
  split; [by apply live_zero|].
  pose proof (inv_quiet _ Hi) as Hq. simpl in Hq. unfold silent.
  apply Forall_forall. intros t Ht.
  apply (proj1 (Forall_forall _ _) Hall) in Ht as Hdt.
  apply (proj1 (Forall_forall _ _) Hq t Ht);
    intros E; unfold is_alive in Hdt; by rewrite E in Hdt.
Qed.

(** [stop_playing] returns, whatever the player was doing, and leaves no
    thread alive and no play object sounding. *)
Lemma stop_playing_returns s fuel :
  reachable from_wave_file (Idle, s) → join_bound s ≤ fuel →
  ∃ s', stop_playing from_wave_file fuel s = Some s' ∧
        reachable from_wave_file (Idle, s') ∧
        thread_alive s' = false ∧ live s' = 0 ∧ silent s' ∧
        length (threads s') = length (threads s) ∧
        (thread_alive s = false → s' = s) ∧
        (thread_alive s = true →
           play_thread s' = None ∧
           (queue s' = [] ∨ ∃ w, w ∈ backlog s ∧ from_wave_file w = None)).
Proof.
  intros Hr Hfuel.
  assert (∀ s', stop_playing from_wave_file fuel s = Some s' →
                reachable from_wave_file (Idle, s')) as Hreach.
  { intros s' Hs'. unfold reachable. etrans; [exact Hr|].
    by eapply stop_playing_steps. }
  destruct (thread_alive s) eqn:Ha'.
  - pose proof Ha' as Ha. unfold thread_alive in Ha.
    destruct (play_thread s) as [i|] eqn:Hp; [|done].
    destruct (threads s !! i) as [t|] eqn:Ht; [|done].
    destruct (join_spec fuel (set_stop_flag true s) i t)
      as (s2 & t' & Hj & Hp2 & Hf2 & Hth2 & Hd2 & Hret & Hexc); try done.
    { simpl. pose proof (weight_bound (length (queue s)) t).
      unfold join_bound in Hfuel. lia. }
    assert (stop_playing from_wave_file fuel s
            = Some (set_play_thread None s2)) as Hstop.
    { unfold stop_playing. by rewrite Ha', Hj. }
    exists (set_play_thread None s2).
    pose proof (reachable_inv _ (Hreach _ Hstop)) as Hi.
    destruct (idle_not_alive _ Hi eq_refl) as [Hl Hs].
    split; [done|]. split; [by apply Hreach|]. do 3 (split; [done|]).
    split; [simpl; by rewrite Hth2, length_insert|].
    split; [done|]. intros _. split; [done|].
    destruct t' as [p' o']. unfold is_alive in Hd2. simpl in *.
    destruct p'; try discriminate Hd2.
    + left. by apply Hret.
    + right. unfold backlog. rewrite Hp, Ht. by apply Hexc.
  - exists s. assert (stop_playing from_wave_file fuel s = Some s) as Hstop
      by (unfold stop_playing; by rewrite Ha').
    destruct (idle_not_alive _ (reachable_inv _ Hr) Ha') as [Hl Hs].
    by repeat split.
Qed.

Lemma add_to_queue_steps w s :
  rtc (step from_wave_file) (Idle, s) (Idle, add_to_queue w s).
Proof.
  eapply rtc_l; [apply (step_call_add _ w)|]. by apply rtc_once, step_main.
Qed.

Lemma reachable_start_playing w s :
  reachable from_wave_file (Idle, s) →
  reachable from_wave_file (Idle, start_playing w s).
Proof.
  intros Hr. unfold reachable. etrans; [exact Hr|]. apply start_playing_steps.
Qed.

Lemma reachable_threads n i m s :
  reachable from_wave_file (m, s) →
  reachable from_wave_file (m, Nat.iter n (tstep i) s).
Proof.
  intros Hr. induction n as [|n IH]; [done|]. simpl.
  destruct (decide (i < length (threads (Nat.iter n (tstep i) s)))) as [Hlt|Hge].
  - unfold reachable. eapply rtc_r; [exact IH|]. by apply step_thread.
  - unfold thread_step at 1. rewrite lookup_ge_None_2 by lia. done.
Qed.

(** *** Leaving the loop *)

(** In a reachable configuration, a live thread that returns on its next
    step does so with [stop_flag] set and the queue empty. *)
Lemma return_needs_stop m s i t :
  reachable from_wave_file (m, s) →
  threads s !! i = Some t → is_alive t = true →
  pc (pstep (stop_flag s) (queue s) t).2 = Returned →
  stop_flag s = true ∧ queue s = [].
Proof.
  intros Hr Ht Ha Hpc.
  apply pstep_returned in Hpc as (Hpc & Hq & _); [|done]. split; [|done].
  pose proof (inv_exit _ (reachable_inv _ Hr)) as Hex. simpl in Hex.
  apply (proj1 (Forall_forall _ _) Hex t); [|done].
  by eapply list_elem_of_lookup_2.
Qed.


(** A dead thread takes no step. *)
Lemma dead_tstep n s i t :
  threads s !! i = Some t → is_alive t = false →
  Nat.iter n (tstep i) s = s.
Proof.
  intros Ht Ha. induction n as [|n IH]; [done|]. simpl. rewrite IH.
  unfold thread_step. rewrite Ht, (dead_stays _ _ _ Ha).
  rewrite list_insert_id by done. by destruct s.
Qed.

(** *** What a stopped worker leaves queued *)

Lemma in_hand_pc t w : in_hand t = [w] → pc t = L39 w.
Proof. unfold in_hand. destruct (pc t); intros [=]. by subst. Qed.

Lemma pstep_left_over flag q t :
  is_alive t = true →
  (is_alive (pstep flag q t).2 = true →
     left_over from_wave_file (in_hand (pstep flag q t).2 ++ (pstep flag q t).1)
     = left_over from_wave_file (in_hand t ++ q)) ∧
  (is_alive (pstep flag q t).2 = false →
     (pstep flag q t).1 = left_over from_wave_file (in_hand t ++ q)).
Proof.
  destruct t as [p o]; destruct p; intros Ha; try discriminate Ha;
    unfold play_audio_step, in_hand; cbn [pc play_obj].
  - by destruct flag.
  - by destruct q.
  - by destruct q.
  - cbn [app left_over]. by destruct (from_wave_file wav_data).
  - done.
  - by destruct (_ && _).
  - done.
Qed.

Lemma join_left_over fuel s s' i t :
  play_thread s = Some i → threads s !! i = Some t → is_alive t = true →
  join from_wave_file fuel s = Some s' →
  queue s' = left_over from_wave_file (in_hand t ++ queue s).
Proof.
  revert s t. induction fuel as [|fuel IH]; intros s t Hp Ht Ha; cbn [join];
    rewrite (thread_alive_lookup s i t Hp Ht), Ha; [done|].
  rewrite Hp. intros Hj.
  pose proof (tstep_threads i s t Ht) as Hts.
  pose proof (tstep_queue i s t Ht) as Hqs.
  destruct (pstep_left_over (stop_flag s) (queue s) t Ha) as [Hlive Hdead].
  set (t1 := (pstep (stop_flag s) (queue s) t).2) in *.
  assert (threads (tstep i s) !! i = Some t1) as Ht1.
  { rewrite Hts. apply list_lookup_insert_eq. by eapply lookup_lt_Some. }
  assert (play_thread (tstep i s) = Some i) as Hp1
    by by rewrite tstep_play_thread.
  destruct (is_alive t1) eqn:Ha1.
  - rewrite (IH (tstep i s) t1 Hp1 Ht1 Ha1 Hj), Hqs. by apply Hlive.
  - rewrite join_dead in Hj by by rewrite (thread_alive_lookup _ i t1).
    injection Hj as <-. rewrite Hqs. by apply Hdead.
Qed.

(** The two ways a live thread ends on its next step. *)
Lemma pstep_ends flag q t :
  is_alive t = true → is_alive (pstep flag q t).2 = false →
  (pc (pstep flag q t).2 = Returned ∧ pc t = L33_empty ∧ q = []) ∨
  (pc (pstep flag q t).2 = Raised ∧
   ∃ w, pc t = L39 w ∧ from_wave_file w = None).
Proof.
  intros Ha Hd. destruct (pstep flag q t).2 as [p' o'] eqn:E.
  unfold is_alive in Hd. simpl in Hd. destruct p'; try discriminate Hd.
  - left. destruct (pstep_returned flag q t Ha) as (? & ? & _);
      [by rewrite E|done].
  - right. destruct (pstep_raised flag q t Ha) as (w & Hw & Hbad);
      [by rewrite E|]. split; [done|]. exists w. split; [|done].
    by apply in_hand_pc.
Qed.

(** *** The claims about the player *)

(** C1, amended.  On a reachable player whose worker is running,
    [stop_playing] returns once the joined worker has ended (enough fuel
    for [join] is [join_bound]); afterwards [play_thread] is [None] and no
    thread is alive.  The queue then holds what [left_over] gives for the
    buffers the worker still had to decode: nothing if every one of them
    decodes, and otherwise exactly the buffers that were queued behind the
    first one that does not. *)
Theorem stop_playing_joins s fuel :
  reachable from_wave_file (Idle, s) →
  thread_alive s = true →
  join_bound s ≤ fuel →
  ∃ s',
    stop_playing from_wave_file fuel s = Some s' ∧
    play_thread s' = None ∧
    Forall (λ t, is_alive t = false) (threads s') ∧
    length (threads s') = length (threads s) ∧
    live s' = 0 ∧
    queue s' = left_over from_wave_file (backlog s) ∧
    (queue s' = [] ∨ ∃ w, w ∈ backlog s ∧ from_wave_file w = None) ∧
    (Forall (λ w, is_Some (from_wave_file w)) (backlog s) → queue s' = []).
Proof.
  intros Hr Ha Hfuel.
  destruct (stop_playing_returns s fuel Hr Hfuel)
    as (s' & Hs & _ & _ & Hl & _ & Hlen & _ & Hq).
  destruct (Hq Ha) as [Hp Hq']. exists s'.
  split; [done|]. split; [done|]. split; [by apply live_zero|].
  split; [done|]. split; [done|]. split; [|split; [done|]].
  - pose proof Ha as Ha'. unfold thread_alive in Ha'. unfold backlog.
    destruct (play_thread s) as [i|] eqn:Hpi; [|done].
    destruct (threads s !! i) as [t|] eqn:Ht; [|done].
    revert Hs. unfold stop_playing. rewrite Ha.
    destruct (join _ _ _) as [s2|] eqn:Hj; [|done]. intros [= <-]. simpl.
    by apply (join_left_over fuel (set_stop_flag true s) s2 i t).
  - intros Hall. destruct Hq' as [|(w & Hw & Hbad)]; [done|].
    apply (proj1 (Forall_forall _ _) Hall) in Hw as [n Hn]. congruence.
Qed.

(** C3.  In every reachable configuration at most one thread running
    [play_audio] is alive, and a step that creates a thread is taken only
    where none is alive. *)
Theorem at_most_one_worker c :
  reachable from_wave_file c →
  live c.2 ≤ 1 ∧
  ∀ c', step from_wave_file c c' →
        length (threads c.2) < length (threads c'.2) →
        c.1 = M53 ∧ live c.2 = 0 ∧ live c'.2 = 1.
Proof.
  intros Hr. pose proof (reachable_inv c Hr) as Hi. split.
  { unfold live. eapply owner_live, (inv_owner _ Hi). }
  intros c' Hs Hlen.
  destruct Hs as [w s|s|w s|m s m' s' Hm|m s i Hlt]; simpl in *.
  - lia.
  - lia.
  - lia.
  - destruct m; simpl in Hm;
      try (match type of Hm with context [thread_alive s] =>
             destruct (thread_alive s) end);
      try discriminate Hm; injection Hm as ? ?; subst m' s'; simpl in Hlen;
      try lia.
    pose proof (inv_spawn _ Hi eq_refl) as Hd. simpl in Hd.
    split; [done|]. split; [by apply live_zero|].
    unfold live, spawn. simpl. rewrite filter_app, no_alive_filter by done.
    done.
  - rewrite tstep_length in Hlen. lia.
Qed.

(** C4, amended.  A buffer that does not decode ends the worker: the
    exception leaves [play_audio], the thread is dead and takes no further
    step, and what is queued behind the buffer stays queued.  On a
    reachable player a live worker ends on its next step in one of two
    ways only: it returns, with a stop requested and the queue empty, or it
    is left by the exception of a buffer that does not decode.  An empty
    queue at [get_nowait] does not end it. *)
Theorem decode_failure_ends_worker m s i t :
  reachable from_wave_file (m, s) →
  threads s !! i = Some t →
  is_alive t = true →
  threads (tstep i s) !! i = Some (pstep (stop_flag s) (queue s) t).2 ∧
  (∀ w, pc t = L39 w → from_wave_file w = None →
        pc (pstep (stop_flag s) (queue s) t).2 = Raised ∧
        queue (tstep i s) = queue s ∧
        ∀ n, Nat.iter n (tstep i) (tstep i s) = tstep i s) ∧
  (is_alive (pstep (stop_flag s) (queue s) t).2 = false →
     (pc (pstep (stop_flag s) (queue s) t).2 = Returned ∧
      stop_flag s = true ∧ queue s = []) ∨
     (pc (pstep (stop_flag s) (queue s) t).2 = Raised ∧
      ∃ w, pc t = L39 w ∧ from_wave_file w = None)) ∧
  (pc t = L35 → queue s = [] →
     pc (pstep (stop_flag s) (queue s) t).2 = L33).
Proof.
  intros Hr Ht Ha.
  assert (threads (tstep i s) !! i
          = Some (pstep (stop_flag s) (queue s) t).2) as Ht'.
  { rewrite (tstep_threads i s t Ht).
    apply list_lookup_insert_eq. by eapply lookup_lt_Some. }
  split; [done|]. split; [|split].
  - intros w Hpc Hbad.
    assert (pstep (stop_flag s) (queue s) t
            = (queue s, Thread Raised (play_obj t))) as Hstep.
    { unfold play_audio_step. by rewrite Hpc, Hbad. }
    split; [by rewrite Hstep|]. split.
    + by rewrite (tstep_queue i s t Ht), Hstep.
    + intros n. eapply dead_tstep; [exact Ht'|]. by rewrite Hstep.
  - intros Hd.
    destruct (pstep_ends (stop_flag s) (queue s) t Ha Hd)
      as [(Hpc & _ & _)|Hexc]; [left|by right].
    split; [done|]. by eapply return_needs_stop.
  - intros Hpc Hq. unfold play_audio_step. by rewrite Hpc, Hq.
Qed.


End PlayerFacts.
(** *** The player on concrete buffers *)

Example playing_state :
  Fixture.playing
  = Player.State (Some 0) false [] [Player.Thread Player.L42 1].
Proof. reflexivity. Qed.

Example drained_state :
  Fixture.drained
  = Player.State (Some 0) false [] [Player.Thread Player.L33 0].
Proof. reflexivity. Qed.

Example poisoned_state :
  Fixture.poisoned
  = Player.State (Some 0) false [Fixture.corrupt; Fixture.good]
      [Player.Thread Player.L42 1].
Proof. reflexivity. Qed.

Example decoding_state :
  Fixture.decoding
  = Player.State (Some 0) false [Fixture.good]
      [Player.Thread (Player.L39 Fixture.corrupt) 0].
Proof. reflexivity. Qed.

Lemma started_reachable :
  Player.reachable Fixture.from_wave_file (Player.Idle, Fixture.started).
Proof. apply reachable_start_playing. unfold Player.reachable. done. Qed.

Lemma spawning_reachable :
  Player.reachable Fixture.from_wave_file Fixture.spawning.
Proof.
  unfold Player.reachable, Fixture.spawning.
  eapply rtc_l; [apply (Player.step_call_start _ Fixture.good)|].
  eapply rtc_l; [by apply Player.step_main|].
  eapply rtc_l; [by apply Player.step_main|].
  by apply rtc_once, Player.step_main.
Qed.

Lemma playing_reachable :
  Player.reachable Fixture.from_wave_file (Player.Idle, Fixture.playing).
Proof. apply reachable_threads, started_reachable. Qed.


Lemma poisoned_reachable :
  Player.reachable Fixture.from_wave_file (Player.Idle, Fixture.poisoned).
Proof. do 2 apply reachable_start_playing. apply playing_reachable. Qed.

Lemma stop_playing_joins_witness :
  Player.thread_alive Fixture.poisoned = true ∧
  Player.backlog Fixture.poisoned = [Fixture.corrupt; Fixture.good] ∧
  ∃ s',
    Player.stop_playing Fixture.from_wave_file 20 Fixture.poisoned = Some s' ∧
    Player.play_thread s' = None ∧
    Forall (λ t, Player.is_alive t = false) (Player.threads s') ∧
    length (Player.threads s') = length (Player.threads Fixture.poisoned) ∧
    Player.live s' = 0 ∧
    Player.queue s'
    = Player.left_over Fixture.from_wave_file
        (Player.backlog Fixture.poisoned) ∧
    (Player.queue s' = [] ∨
     ∃ w, w ∈ Player.backlog Fixture.poisoned ∧
          Fixture.from_wave_file w = None) ∧
    (Forall (λ w, is_Some (Fixture.from_wave_file w))
       (Player.backlog Fixture.poisoned) → Player.queue s' = []).
Proof.
  split; [reflexivity|]. split; [reflexivity|].
  apply (stop_playing_joins Fixture.from_wave_file Fixture.poisoned 20).
  - exact poisoned_reachable.
  - reflexivity.
  - vm_compute. lia.
Defined.

(** C1 as stated fails.  [good] is sounding, so the worker is running;
    [corrupt] and [good] are enqueued behind it.  [stop_playing] then
    returns with no thread alive and [good] still in the queue: the worker
    died on [corrupt]. *)
Lemma stop_playing_leaves_queue :
  Player.reachable Fixture.from_wave_file (Player.Idle, Fixture.poisoned) ∧
  Player.thread_alive Fixture.poisoned = true ∧
  ∃ s',
    Player.stop_playing Fixture.from_wave_file
      (Player.join_bound Fixture.poisoned) Fixture.poisoned = Some s' ∧
    Player.live s' = 0 ∧
    Player.queue s' = [Fixture.good] ∧
    Player.queue s' ≠ [].
Proof.
  split; [exact poisoned_reachable|].
  split; [reflexivity|]. eexists. split; [vm_compute; reflexivity|].
  split; [reflexivity|]. split; [reflexivity|]. discriminate.
Qed.

Lemma at_most_one_worker_witness :
  Player.live Fixture.spawning.2 ≤ 1 ∧
  Fixture.spawning.1 = Player.M53 ∧
  Player.live Fixture.spawning.2 = 0 ∧
  Player.live Fixture.started = 1.
Proof.
  destruct (at_most_one_worker Fixture.from_wave_file Fixture.spawning
              spawning_reachable) as [Hle Hspawn].
  split; [exact Hle|].
  apply (Hspawn (Player.Idle, Fixture.started)).
  - by apply Player.step_main.
  - vm_compute. lia.
Defined.

Lemma decoding_reachable :
  Player.reachable Fixture.from_wave_file (Player.Idle, Fixture.decoding).
Proof. apply reachable_threads, poisoned_reachable. Qed.

Lemma decode_failure_ends_worker_witness :
  Player.threads (Player.thread_step Fixture.from_wave_file 0 Fixture.decoding)
    !! 0 = Some (Player.Thread Player.Raised 0) ∧
  Player.queue (Player.thread_step Fixture.from_wave_file 0 Fixture.decoding)
    = [Fixture.good] ∧
  ∀ n, Nat.iter n (Player.thread_step Fixture.from_wave_file 0)
         (Player.thread_step Fixture.from_wave_file 0 Fixture.decoding)
       = Player.thread_step Fixture.from_wave_file 0 Fixture.decoding.
Proof.
  destruct (decode_failure_ends_worker Fixture.from_wave_file Player.Idle
              Fixture.decoding 0
              (Player.Thread (Player.L39 Fixture.corrupt) 0))
    as (Ht & Hbad & _ & _).
  - exact decoding_reachable.
  - reflexivity.
  - reflexivity.
  - destruct (Hbad Fixture.corrupt eq_refl eq_refl) as (_ & Hq & Hn).
    split; [exact Ht|]. split; [exact Hq|exact Hn].
Defined.

(** C4 as stated fails: the worker takes [corrupt] from the queue and is
    dead one step later; [good], queued behind it, stays in the queue
    however long the thread is given. *)
Lemma corrupt_buffer_kills_worker :
  Player.threads Fixture.decoding !! 0
    = Some (Player.Thread (Player.L39 Fixture.corrupt) 0) ∧
  Fixture.from_wave_file Fixture.corrupt = None ∧
  let s := Player.thread_step Fixture.from_wave_file 0 Fixture.decoding in
  Player.threads s !! 0 = Some (Player.Thread Player.Raised 0) ∧
  Player.thread_alive s = false ∧
  ∀ n, Player.queue
         (Nat.iter n (Player.thread_step Fixture.from_wave_file 0) s)
       = [Fixture.good].
Proof.
  split; [reflexivity|]. split; [reflexivity|]. intros s.
  split; [reflexivity|]. split; [reflexivity|]. intros n.
  by rewrite (dead_tstep Fixture.from_wave_file n s 0
                (Player.Thread Player.Raised 0)).
Qed.



(** * Properties of the dispatcher *)

Section DispatchFacts.

Import Player Dispatch.

Context {wav : Type}.
Context (from_wave_file : wav → option nat).
Context (to_wav : list Byte.byte → option wav).

Implicit Types (w : @world wav) (message : string).

Lemma interrupt_not_turn_end message :
  startswith interrupt message = true → (message =? turn_end)%string = false.
Proof.
  intros H. destruct (String.eqb_spec message turn_end) as [->|]; [|done].
  discriminate H.
Qed.

Lemma startswith_app p s t :
  startswith p s = true → startswith p (s ++ t)%string = true.
Proof.
  unfold startswith. revert s. induction p as [|a p IH]; intros s.
  - intros _. by destruct (s ++ t)%string.
  - destruct s as [|b s]; simpl; [done|].
    destruct (ascii_dec a b); [apply IH|done].
Qed.

Lemma append_empty s : (s ++ "")%string = s.
Proof. induction s as [|a s IH]; simpl; by rewrite ?IH. Qed.

Lemma exec_reachable fuel a w w' :
  reachable from_wave_file (Idle, audio_player w) →
  exec from_wave_file fuel a w = Some w' →
  reachable from_wave_file (Idle, audio_player w').
Proof.
  intros Hr. destruct a as [text| |wav_data]; simpl.
  - by intros [= <-].
  - destruct (stop_playing _ _ _) as [p|] eqn:Hp; [|done]. intros [= <-].
    simpl. unfold reachable. etrans; [exact Hr|]. by eapply stop_playing_steps.
  - intros [= <-]. simpl. by apply reachable_start_playing.
Qed.

(** C2.  A text frame that starts with ['[+]'] makes the dispatcher call
    [stop_playing] first and print second.  On a reachable player the call
    returns (enough fuel for [join] is [join_bound]), with no thread alive
    and no play object sounding, and only then is the text put on the
    console: in the history [StopReturned] comes before [Displayed]. *)
Theorem interrupt_stops_before_display w message fuel :
  reachable from_wave_file (Idle, audio_player w) →
  startswith interrupt message = true →
  join_bound (audio_player w) ≤ fuel →
  ∃ p,
    dispatch to_wav (Message (Text message))
      = ([StopPlaying; Print (message ++ nl)%string], Continue) ∧
    stop_playing from_wave_file fuel (audio_player w) = Some p ∧
    live p = 0 ∧ silent p ∧
    exec_all from_wave_file fuel [StopPlaying; Print (message ++ nl)%string] w
      = Some (World (console w ++ (message ++ nl))%string p
                (history w ++
                   [StopCalled; StopReturned; Displayed (message ++ nl)%string])).
Proof.
  intros Hr Hpre Hfuel.
  destruct (stop_playing_returns from_wave_file (audio_player w) fuel Hr Hfuel)
    as (p & Hp & _ & _ & Hl & Hs & _).
  exists p. split; [|split; [done|split; [done|split; [done|]]]].
  - simpl. by rewrite (interrupt_not_turn_end _ Hpre), Hpre.
  - simpl. rewrite Hp. simpl. by rewrite <- app_assoc.
Qed.

(** C7, amended.  For a text frame that starts with ['[+]'] the console
    gets the whole frame, prefix included, and a line terminator after it. *)
Theorem interrupt_frame_displayed_whole message :
  startswith interrupt message = true →
  displayed (dispatch to_wav (Message (Text message))).1
    = (message ++ nl)%string ∧
  startswith interrupt (displayed (dispatch to_wav (Message (Text message))).1)
    = true.
Proof.
  intros Hpre. simpl. rewrite (interrupt_not_turn_end _ Hpre), Hpre. simpl.
  rewrite append_empty. split; [done|]. by apply startswith_app.
Qed.

(** C8.  The frame ['[end]\n'] makes the dispatcher print the prompt
    ['\nYou: '] once and do nothing else: the marker is not part of what is
    printed, no action touches the player, and the loop goes on. *)
Theorem turn_end_prompts_once :
  dispatch to_wav (Message (Text turn_end))
    = ([Print (nl ++ "You: ")%string], Continue) ∧
  displayed (dispatch to_wav (Message (Text turn_end))).1
    = (nl ++ "You: ")%string ∧
  index 0 turn_end (displayed (dispatch to_wav (Message (Text turn_end))).1)
    = None ∧
  filter (λ a, is_playback a = true)
    (dispatch to_wav (Message (Text turn_end))).1 = [] ∧
  ∀ fuel w,
    exec_all from_wave_file fuel (dispatch to_wav (Message (Text turn_end))).1 w
    = Some (World (console w ++ (nl ++ "You: "))%string (audio_player w)
              (history w ++ [Displayed (nl ++ "You: ")%string])).
Proof. by repeat split. Qed.

(** C10.  A text frame that is not ['[end]\n'] and does not start with
    ['[+]'] is printed as it is, with nothing after it, and the player is
    left alone; the frame ['[end]'] without the line terminator is such a
    frame. *)
Theorem plain_text_displayed_verbatim message :
  message ≠ turn_end →
  startswith interrupt message = false →
  dispatch to_wav (Message (Text message)) = ([Print message], Continue) ∧
  (∀ fuel w,
     exec_all from_wave_file fuel
       (dispatch to_wav (Message (Text message))).1 w
     = Some (World (console w ++ message)%string (audio_player w)
               (history w ++ [Displayed message]))) ∧
  dispatch to_wav (Message (Text "[end]")) = ([Print "[end]"%string], Continue).
Proof.
  intros Hne Hpre.
  assert (dispatch to_wav (Message (Text message))
          = ([Print message], Continue)) as Hd.
  { simpl. rewrite Hpre.
    by destruct (String.eqb_spec message turn_end). }
  split; [done|]. split; [|done]. intros fuel w. by rewrite Hd.
Qed.

End DispatchFacts.

(** *** The dispatcher on concrete frames *)

Lemma interrupt_stops_before_display_witness :
  let w := Dispatch.World ""%string Fixture.playing [] in
  ∃ p,
    Dispatch.dispatch Fixture.to_wav
      (Dispatch.Message (Dispatch.Text "[+]Done talking"))
    = ([Dispatch.StopPlaying;
        Dispatch.Print ("[+]Done talking" ++ Dispatch.nl)%string],
       Dispatch.Continue) ∧
    Player.stop_playing Fixture.from_wave_file 13 Fixture.playing = Some p ∧
    Player.live p = 0 ∧ Player.silent p ∧
    Dispatch.exec_all Fixture.from_wave_file 13
      [Dispatch.StopPlaying;
       Dispatch.Print ("[+]Done talking" ++ Dispatch.nl)%string] w
    = Some (Dispatch.World
              ("" ++ ("[+]Done talking" ++ Dispatch.nl))%string p
              ([] ++ [Dispatch.StopCalled; Dispatch.StopReturned;
                      Dispatch.Displayed
                        ("[+]Done talking" ++ Dispatch.nl)%string])).
Proof.
  intros w.
  apply (interrupt_stops_before_display Fixture.from_wave_file Fixture.to_wav
           w "[+]Done talking" 13).
  - exact playing_reachable.
  - reflexivity.
  - vm_compute. lia.
Defined.

Lemma interrupt_frame_displayed_whole_witness :
  Dispatch.displayed
    (Dispatch.dispatch Fixture.to_wav
       (Dispatch.Message (Dispatch.Text "[+]Done talking"))).1
  = ("[+]Done talking" ++ Dispatch.nl)%string ∧
  Dispatch.startswith Dispatch.interrupt
    (Dispatch.displayed
       (Dispatch.dispatch Fixture.to_wav
          (Dispatch.Message (Dispatch.Text "[+]Done talking"))).1) = true.
Proof.
  apply (interrupt_frame_displayed_whole Fixture.to_wav "[+]Done talking").
  reflexivity.
Defined.

(** C7 as stated fails: for the frame ['[+]Done talking'] the console
    gets ['[+]Done talking\n'], not the remainder ['Done talking']. *)
Lemma interrupt_prefix_is_displayed :
  Dispatch.startswith Dispatch.interrupt "[+]Done talking" = true ∧
  Dispatch.after_prefix Dispatch.interrupt "[+]Done talking"
    = "Done talking"%string ∧
  Dispatch.displayed
    (Dispatch.dispatch Fixture.to_wav
       (Dispatch.Message (Dispatch.Text "[+]Done talking"))).1
  = ("[+]Done talking" ++ Dispatch.nl)%string ∧
  Dispatch.displayed
    (Dispatch.dispatch Fixture.to_wav
       (Dispatch.Message (Dispatch.Text "[+]Done talking"))).1
  ≠ Dispatch.after_prefix Dispatch.interrupt "[+]Done talking".
Proof. repeat split; try reflexivity. discriminate. Qed.

Lemma plain_text_displayed_verbatim_witness :
  Dispatch.dispatch Fixture.to_wav (Dispatch.Message (Dispatch.Text "[end]"))
  = ([Dispatch.Print "[end]"%string], Dispatch.Continue) ∧
  (∀ fuel w,
     Dispatch.exec_all Fixture.from_wave_file fuel
       (Dispatch.dispatch Fixture.to_wav
          (Dispatch.Message (Dispatch.Text "[end]"))).1 w
     = Some (Dispatch.World (Dispatch.console w ++ "[end]")%string
               (Dispatch.audio_player w)
               (Dispatch.history w ++ [Dispatch.Displayed "[end]"%string]))) ∧
  Dispatch.dispatch Fixture.to_wav (Dispatch.Message (Dispatch.Text "[end]"))
  = ([Dispatch.Print "[end]"%string], Dispatch.Continue).
Proof.
  apply (plain_text_displayed_verbatim Fixture.from_wave_file Fixture.to_wav
           "[end]").
  - discriminate.
  - reflexivity.
Defined.

(** * Properties of the session *)

Section SessionFacts.

Import Session.

Lemma lower_ascii_a c :
  lower_ascii c = "a"%char ↔ c = "a"%char ∨ c = "A"%char.
Proof.
  destruct c as [[] [] [] [] [] [] [] []]; vm_compute;
    split; try discriminate; try (intros [H|H]; discriminate H); auto.
Qed.

Lemma lower_a mode :
  lower mode = "a"%string ↔ mode = "a"%string ∨ mode = "A"%string.
Proof.
  destruct mode as [|c [|c' rest]]; simpl.
  - split; [discriminate|intros [H|H]; discriminate H].
  - split.
    + intros [= H]. apply lower_ascii_a in H as [-> | ->]; auto.
    + intros [[= ->]|[= ->]]; reflexivity.
  - split; [discriminate|intros [H|H]; discriminate H].
Qed.

(** C9, amended.  The producer is chosen by [mode.lower() == 'a']: the
    modes ['a'] and ['A'] select [handle_audio] (once the device has been
    chosen), every other mode selects [handle_text]; whenever the tasks
    are created, exactly one of them is a producer. *)
Theorem mode_selects_producer mode device :
  (mode = "a"%string ∨ mode = "A"%string →
     create_tasks mode device
     = (device_id ← device; Some [send_task (handle_audio device_id); receive_task])) ∧
  (mode ≠ "a"%string → mode ≠ "A"%string →
     create_tasks mode device = Some [send_task handle_text; receive_task]) ∧
  (∀ tasks, create_tasks mode device = Some tasks →
            length (filter (λ t, is_producer t = true) tasks) = 1).
Proof.
  unfold create_tasks.
  destruct (String.eqb_spec (lower mode) "a") as [E|E].
  - apply lower_a in E. split; [done|]. split; [intros; tauto|].
    intros tasks. destruct device; simpl; [|done]. by intros [= <-].
  - split; [|split; [done|by intros tasks [= <-]]].
    intros H. by apply lower_a in H.
Qed.

Lemma run_keeps_cancel evs g :
  receive_cancel (run evs g) = receive_cancel g ∧
  send_cancel (run evs g) = send_cancel g.
Proof.
  revert g. induction evs as [|[c f] evs IH]; intros g; [done|].
  simpl. destruct (IH (done_callback c f g)) as [-> ->]. by destruct c.
Qed.

(** C6, amended.  [start_client] awaits both tasks through [gather].  When
    the first of them ends, its sibling is neither cancelled nor awaited:
    it stays pending with no [cancel()] called on it.  If the first ended
    by returning, [gather] goes on waiting; if it ended by an exception or
    a cancellation, that is passed to [start_client] at once.  No sequence
    of task endings makes [gather] call [cancel()] on a task. *)
Theorem first_completion_cancels_nothing c f :
  cancel_of (sibling c) (done_callback c f gather_start) = false ∧
  status_of (sibling c) (done_callback c f gather_start) = Pending ∧
  outer (done_callback c f gather_start)
    = match f with
      | Returns => Pending
      | _ => Finished f
      end ∧
  outer (done_callback (sibling c) Returns (done_callback c Returns gather_start))
    = Finished Returns ∧
  ∀ evs, receive_cancel (run evs gather_start) = false ∧
         send_cancel (run evs gather_start) = false.
Proof.
  split; [by destruct c|]. split; [by destruct c|].
  split; [by destruct c, f|]. split; [by destruct c|].
  intros evs. apply (run_keeps_cancel evs gather_start).
Qed.

End SessionFacts.

(** *** The session on concrete inputs *)

(** C9 as stated fails: the mode ['A'] is not ['a'], and it selects the
    audio producer, not the text producer. *)
Lemma upper_case_mode_selects_audio :
  "A"%string ≠ "a"%string ∧
  Session.create_tasks "A" (Some 0%Z)
    = Some [Session.send_task (Session.handle_audio 0); Session.receive_task] ∧
  Session.create_tasks "A" (Some 0%Z)
    ≠ Some [Session.send_task Session.handle_text; Session.receive_task].
Proof. repeat split; try reflexivity; discriminate. Qed.

(** C6 as stated fails: when the connection is closed in the middle of
    [recv], [receive_message] prints the error and returns; its task is
    then the first to end, and [gather] keeps waiting for the producer,
    which is still pending and on which no [cancel()] was called. *)
Lemma closed_connection_leaves_producer :
  let w := Dispatch.World ""%string Fixture.playing [] in
  (∃ w', Dispatch.receive_message Fixture.from_wave_file Fixture.to_wav 0
           [Dispatch.ConnectionClosedError "no close frame received or sent"] w
         = Some (w', Dispatch.Done)) ∧
  Session.task_finish Dispatch.Done = Some Session.Returns ∧
  let g := Session.done_callback Session.Receive Session.Returns
             Session.gather_start in
  Session.outer g = Session.Pending ∧
  Session.send_status g = Session.Pending ∧
  Session.send_cancel g = false.
Proof.
  intros w. split; [eexists; reflexivity|]. by repeat split.
Qed.

(** * Further properties of the player *)

Section PlayerMore.

Import Player Observe.

Context {wav : Type}.
Context (from_wave_file : wav → option nat).

Implicit Types (s : @state wav) (t : @thread wav) (q : list wav).

Abbreviation pstep' := (play_audio_step from_wave_file).
Abbreviation tstep' := (thread_step from_wave_file).
Abbreviation run' := (run from_wave_file).
Abbreviation taken' := (taken from_wave_file).

(** *** A thread on its own *)

Lemma run_add a b flag q t :
  run' (a + b) flag q t = run' b flag (run' a flag q t).1 (run' a flag q t).2.
Proof.
  revert q t. induction a as [|a IH]; intros q t; simpl; [done|].
  destruct (pstep' flag q t) as [q' t']. apply IH.
Qed.

Lemma taken_add a b flag q t :
  taken' (a + b) flag q t
  = taken' a flag q t ++ taken' b flag (run' a flag q t).1 (run' a flag q t).2.
Proof.
  revert q t. induction a as [|a IH]; intros q t; simpl; [done|].
  destruct (pstep' flag q t) as [q' t']. by rewrite IH, app_assoc.
Qed.

Lemma iter_tstep_run n i s t :
  threads s !! i = Some t →
  Nat.iter n (tstep' i) s
  = State (play_thread s) (stop_flag s)
      (run' n (stop_flag s) (queue s) t).1
      (<[i := (run' n (stop_flag s) (queue s) t).2]> (threads s)).
Proof.
  revert s t. induction n as [|n IH]; intros s t Ht.
  - simpl. rewrite list_insert_id by done. by destruct s.
  - rewrite Nat.iter_succ_r. simpl.
    pose proof (tstep_threads from_wave_file i s t Ht) as Hth.
    pose proof (tstep_queue from_wave_file i s t Ht) as Hq.
    destruct (pstep' (stop_flag s) (queue s) t) as [q' t'] eqn:E.
    simpl in Hth, Hq.
    rewrite (IH (tstep' i s) t').
    + rewrite tstep_play_thread, tstep_stop_flag, Hq, Hth.
      by rewrite list_insert_insert_eq.
    + rewrite Hth. apply list_lookup_insert_eq. by eapply lookup_lt_Some.
Qed.

Lemma got_queue flag q t :
  got t (pstep' flag q t).2 ++ (pstep' flag q t).1 = q.
Proof.
  destruct t as [p o]; destruct p; unfold play_audio_step, got;
    cbn [pc play_obj]; try done;
    try (by destruct flag); try (by destruct q);
    try (by destruct (from_wave_file wav_data)).
  by destruct (_ && _).
Qed.

(** X1.  What the worker has taken, in the order it took it, followed by
    what is still queued, is the queue it started from: buffers are taken
    first in, first out, none is lost, skipped or taken twice. *)
Theorem taken_then_queued fuel flag q t :
  taken from_wave_file fuel flag q t ++ (run from_wave_file fuel flag q t).1
  = q.
Proof.
  revert q t. induction fuel as [|fuel IH]; intros q t; simpl; [done|].
  pose proof (got_queue flag q t) as Hg.
  destruct (pstep' flag q t) as [q' t']. simpl in Hg.
  by rewrite <- app_assoc, IH.
Qed.

Lemma polls n q :
  run' n false q (Thread L42 n) = (q, Thread L42 0) ∧
  taken' n false q (Thread L42 n) = [].
Proof.
  induction n as [|n IH]; [done|]. simpl. by destruct IH as [-> ->].
Qed.

(** X2.  With no stop requested, a decoded wave object is played to its
    end: after [play()] the worker stays at line 42 for every one of the
    [n] polls that [is_playing()] answers with [True], and leaves it only
    when none is left. *)
Theorem played_to_the_end n o q :
  (∀ k, k ≤ n →
        run from_wave_file (S k) false q (Thread (L40 n) o)
        = (q, Thread L42 (n - k))) ∧
  run from_wave_file (n + 2) false q (Thread (L40 n) o) = (q, Thread L45 0) ∧
  run from_wave_file (n + 3) false q (Thread (L40 n) o) = (q, Thread L33 0).
Proof.
  assert (∀ m k, k ≤ m →
            run' k false q (Thread L42 m) = (q, Thread L42 (m - k))) as Hpoll.
  { intros m k. revert m. induction k as [|k IH]; intros m Hk.
    - by rewrite Nat.sub_0_r.
    - destruct m as [|m]; [lia|]. simpl. apply IH. lia. }
  split; [|split].
  - intros k Hk. simpl. by apply Hpoll.
  - replace (n + 2) with (1 + (n + 1)) by lia. rewrite run_add. simpl.
    rewrite run_add, (Hpoll n n), Nat.sub_diag by done. done.
  - replace (n + 3) with (1 + (n + 2)) by lia. rewrite run_add. simpl.
    rewrite run_add, (Hpoll n n), Nat.sub_diag by done. done.
Qed.

Lemma cycle n w o q :
  from_wave_file w = Some n →
  run' (n + 6) false (w :: q) (Thread L33 o) = (q, Thread L33 0) ∧
  taken' (n + 6) false (w :: q) (Thread L33 o) = [w].
Proof.
  intros Hw.
  assert (run' 4 false (w :: q) (Thread L33 o) = (q, Thread L42 n)) as Hr
    by (cbn; rewrite Hw; reflexivity).
  assert (taken' 4 false (w :: q) (Thread L33 o) = [w]) as Ht
    by (cbn; rewrite Hw; reflexivity).
  replace (n + 6) with (4 + (n + 2)) by lia.
  rewrite run_add, taken_add, Hr, Ht. cbn [fst snd].
  rewrite run_add, taken_add.
  destruct (polls n q) as [-> ->]. done.
Qed.

Lemma spin k o (p : @wpc wav) :
  p = L33 ∨ p = L35 →
  (run' k false [] (Thread p o)).1 = [] ∧
  is_alive (run' k false [] (Thread p o)).2 = true ∧
  taken' k false [] (Thread p o) = [].
Proof.
  revert p. induction k as [|k IH]; intros p Hp.
  - by destruct Hp as [-> | ->].
  - destruct Hp as [-> | ->]; simpl; apply IH; auto.
Qed.

(** X3.  With no stop requested and every queued buffer decodable, the
    worker takes all of them, in queue order, within [play_time] steps, and
    is still alive afterwards. *)
Theorem plays_queue_in_order q o fuel :
  Forall (λ w, is_Some (from_wave_file w)) q →
  play_time from_wave_file q ≤ fuel →
  taken from_wave_file fuel false q (Thread L33 o) = q ∧
  (run from_wave_file fuel false q (Thread L33 o)).1 = [] ∧
  is_alive (run from_wave_file fuel false q (Thread L33 o)).2 = true.
Proof.
  intros Hq. revert o fuel. induction Hq as [|w q [n Hn] _ IH]; intros o fuel Hf.
  - destruct (spin fuel o L33) as (? & ? & ?); auto.
  - simpl in Hf. rewrite Hn in Hf.
    replace fuel with ((n + 6) + (fuel - (n + 6))) by lia.
    rewrite run_add, taken_add.
    destruct (cycle n w o q Hn) as [-> ->]. simpl.
    destruct (IH 0 (fuel - (n + 6))) as (-> & ? & ?); [lia|]. done.
Qed.

(** *** The methods of the player *)

Lemma thread_alive_live s : thread_alive s = true → 1 ≤ live s.
Proof.
  unfold thread_alive, live. intros H.
  destruct (play_thread s) as [i|]; [|done].
  destruct (threads s !! i) as [t|] eqn:Ht; [|done].
  assert (t ∈ filter (λ t, is_alive t = true) (threads s)) as Hin.
  { apply list_elem_of_filter. split; [done|]. by eapply list_elem_of_lookup_2. }
  destruct (filter _ _); [by apply elem_of_nil in Hin|simpl; lia].
Qed.

Lemma reachable_live s :
  reachable from_wave_file (Idle, s) → live s ≤ 1.
Proof.
  intros Hr. unfold live.
  eapply owner_live, (inv_owner _ (reachable_inv from_wave_file _ Hr)).
Qed.

Lemma start_playing_alive w s : thread_alive (start_playing w s) = true.
Proof.
  unfold start_playing.
  set (s0 := set_queue (queue (set_stop_flag false s) ++ [w])
               (set_stop_flag false s)).
  destruct (thread_alive s0) eqn:E; [done|].
  unfold thread_alive, spawn. simpl.
  by rewrite lookup_app_r, Nat.sub_diag by done.
Qed.

(** X4.  Whenever a call of [start_playing] returns, whatever the worker
    did while it ran, no stop is requested and exactly one worker is
    alive. *)
Theorem start_playing_returns_with_worker c c' :
  reachable from_wave_file c →
  step from_wave_file c c' →
  c.1 = M52 ∨ c.1 = M53 →
  c'.1 = Idle →
  stop_flag c'.2 = false ∧ thread_alive c'.2 = true ∧ live c'.2 = 1.
Proof.
  intros Hr Hs Hm Hidle.
  assert (reachable from_wave_file c') as Hr'
    by (unfold reachable; by eapply rtc_r).
  pose proof (inv_clear _ (reachable_inv from_wave_file c Hr)) as Hc.
  assert (stop_flag c'.2 = false ∧ thread_alive c'.2 = true) as [Hf Ha].
  { destruct Hs as [w s|s|w s|m s m' s' Hstep|m s i Hlt]; simpl in *;
      try (destruct Hm; discriminate).
    - destruct Hm as [-> | ->]; simpl in Hstep.
      + destruct (thread_alive s) eqn:Ha; injection Hstep as <- <-; [|done].
        split; [apply Hc; auto|done].
      + injection Hstep as <- <-. split; [apply Hc; auto|].
        unfold thread_alive, spawn. simpl.
        by rewrite lookup_app_r, Nat.sub_diag by done.
    - destruct Hm as [-> | ->]; discriminate Hidle. }
  split; [done|]. split; [done|].
  pose proof (thread_alive_live _ Ha).
  destruct c' as [m' s']. simpl in *. subst m'.
  pose proof (reachable_live _ Hr'). lia.
Qed.

(** X5.  A second [stop_playing] changes nothing: once [stop_playing] has
    returned, calling it again returns at once with the same state. *)
Theorem stop_playing_twice fuel fuel' s s' :
  stop_playing from_wave_file fuel s = Some s' →
  stop_playing from_wave_file fuel' s' = Some s'.
Proof.
  unfold stop_playing at 1. destruct (thread_alive s) eqn:Ha.
  - destruct (join _ _ _) as [s2|]; [|done]. intros [= <-]. done.
  - intros [= <-]. unfold stop_playing. by rewrite Ha.
Qed.

(** X6.  [start_playing] after [stop_playing]: a new thread is created
    and it is the only one alive, no stop is requested any more, and the
    new buffer is queued behind whatever the stopped worker left in the
    queue. *)
Theorem start_after_stop fuel w s s' :
  reachable from_wave_file (Idle, s) →
  stop_playing from_wave_file fuel s = Some s' →
  play_thread (start_playing w s') = Some (length (threads s')) ∧
  threads (start_playing w s') = threads s' ++ [fresh_thread] ∧
  queue (start_playing w s') = queue s' ++ [w] ∧
  stop_flag (start_playing w s') = false ∧
  live (start_playing w s') = 1.
Proof.
  intros Hr Hs.
  assert (reachable from_wave_file (Idle, s')) as Hr'.
  { unfold reachable. etrans; [exact Hr|]. by eapply stop_playing_steps. }
  assert (thread_alive s' = false) as Hd.
  { revert Hs. unfold stop_playing. destruct (thread_alive s) eqn:Ha.
    - destruct (join _ _ _) as [s2|]; [|done]. by intros [= <-].
    - by intros [= <-]. }
  pose proof (thread_alive_live _ (start_playing_alive w s')).
  pose proof (reachable_live _ (reachable_start_playing from_wave_file w s' Hr')).
  assert (thread_alive (set_queue (queue (set_stop_flag false s') ++ [w])
                          (set_stop_flag false s')) = false) as Hsame
    by done.
  unfold start_playing in *. rewrite Hsame in *. simpl in *.
  repeat split; try done. lia.
Qed.

Lemma tstep_all_dead i s :
  Forall (λ t, is_alive t = false) (threads s) → tstep' i s = s.
Proof.
  intros Hd. unfold thread_step.
  destruct (threads s !! i) as [t|] eqn:Ht; [|done].
  rewrite (dead_stays from_wave_file _ _ t)
    by by eapply (proj1 (Forall_lookup _ _) Hd).
  rewrite list_insert_id by done. by destruct s.
Qed.

(** X7.  [add_to_queue] starts nothing.  On a player without a live
    worker the buffer it queues is not taken by any thread, however many
    steps the threads are given: it stays queued until a later
    [start_playing]. *)
Theorem add_to_queue_not_played w s (sched : list nat) :
  reachable from_wave_file (Idle, s) →
  thread_alive s = false →
  threads (add_to_queue w s) = threads s ∧
  foldr (λ i s', thread_step from_wave_file i s') (add_to_queue w s) sched
    = add_to_queue w s ∧
  queue (add_to_queue w s) = queue s ++ [w].
Proof.
  intros Hr Ha. split; [done|]. split; [|done].
  pose proof (owner_dead s (inv_owner _ (reachable_inv from_wave_file _ Hr)) Ha)
    as Hd.
  induction sched as [|i sched IH]; [done|]. simpl. rewrite IH.
  by apply tstep_all_dead.
Qed.

Lemma at_most_one (P : @thread wav → Prop) `{!∀ t, Decision (P t)}
    (l : list (@thread wav)) (o : option nat) :
  (∀ i t, l !! i = Some t → P t → o = Some i) →
  length (filter P l) ≤ 1.
Proof.
  revert o. induction l as [|t l IH]; intros o Ho; [simpl; lia|].
  rewrite filter_cons. destruct (decide (P t)) as [E|E].
  - assert (o = Some 0) as -> by (by apply (Ho 0 t)).
    assert (filter P l = []) as ->; [|simpl; lia].
    apply elem_of_nil_inv. intros x [Hx [j Hj]%list_elem_of_lookup]%list_elem_of_filter.
    by specialize (Ho (S j) x Hj Hx).
  - apply (IH (pred <$> o)). intros j tj Hj Haj.
    by rewrite (Ho (S j) tj Hj Haj).
Qed.

(** X8.  Sounds never overlap: in every reachable configuration at most
    one play object sounds, and the thread it belongs to is the live
    worker [play_thread] refers to, at line 42 or 45. *)
Theorem sounds_never_overlap c :
  reachable from_wave_file c →
  sounding c.2 ≤ 1 ∧
  ∀ i t, threads c.2 !! i = Some t → 0 < play_obj t →
         play_thread c.2 = Some i ∧ (pc t = L42 ∨ pc t = L45).
Proof.
  intros Hr. pose proof (reachable_inv from_wave_file c Hr) as Hi.
  assert (∀ i t, threads c.2 !! i = Some t → 0 < play_obj t →
                 play_thread c.2 = Some i ∧ (pc t = L42 ∨ pc t = L45)) as Hs.
  { intros i t Ht Hpo.
    pose proof (proj1 (Forall_lookup _ _) (inv_quiet _ Hi) i t Ht) as Hq.
    simpl in Hq.
    assert (pc t = L42 ∨ pc t = L45) as Hpc.
    { destruct (pc t) eqn:E; auto; exfalso;
        (enough (play_obj t = 0) by lia); apply Hq; congruence. }
    split; [|done]. apply (inv_owner _ Hi i t Ht).
    unfold is_alive. by destruct Hpc as [-> | ->]. }
  split; [|done]. unfold sounding.
  apply (at_most_one _ _ (play_thread c.2)). intros i t Ht Hpo.
  by destruct (Hs i t Ht Hpo).
Qed.

Lemma drain_cycle n w o q :
  from_wave_file w = Some n →
  run' 5 true (w :: q) (Thread L33 o) = (q, Thread L42 n) ∧
  run' 7 true (w :: q) (Thread L33 o) = (q, Thread L33 0) ∧
  taken' 7 true (w :: q) (Thread L33 o) = [w].
Proof.
  intros Hw. repeat split; cbn; rewrite Hw; cbn; by rewrite ?andb_false_r.
Qed.

(** X21.  A stop request does not drop what is queued unheard.  With
    [stop_flag] set the worker still takes every queued buffer, in order,
    decodes it and starts it, and stops it on the next step without a
    single poll; seven steps per buffer, then it returns with the queue
    empty. *)
Theorem stop_starts_every_buffer q o :
  Forall (λ w, is_Some (from_wave_file w)) q →
  (∀ w n q', q = w :: q' → from_wave_file w = Some n →
             run from_wave_file 5 true q (Thread L33 o)
             = (q', Thread L42 n) ∧
             run from_wave_file 7 true q (Thread L33 o)
             = (q', Thread L33 0)) ∧
  taken from_wave_file (7 * length q + 2) true q (Thread L33 o) = q ∧
  (run from_wave_file (7 * length q + 2) true q (Thread L33 o)).1 = [] ∧
  pc (run from_wave_file (7 * length q + 2) true q (Thread L33 o)).2
  = Returned.
Proof.
  intros Hq. split.
  { intros w n q' -> Hw. by destruct (drain_cycle n w o q' Hw) as (? & ? & _). }
  revert o. induction Hq as [|w q [n Hn] _ IH]; intros o; [done|].
  replace (7 * length (w :: q) + 2) with (7 + (7 * length q + 2))
    by (simpl; lia).
  rewrite run_add, taken_add.
  destruct (drain_cycle n w o q Hn) as (_ & -> & ->). simpl fst. simpl snd.
  destruct (IH 0) as (-> & ? & ?). done.
Qed.

End PlayerMore.

(** * Further properties of the dispatcher *)

Section DispatchMore.

Import Player Dispatch Console.

Context {wav : Type}.
Context (from_wave_file : wav → option nat).
Context (to_wav : list Byte.byte → option wav).

Implicit Types (w : @world wav) (inbound : list recv).

Abbreviation receive := (receive_message from_wave_file to_wav).

Lemma pstep_queue_le flag q (t : @thread wav) :
  length (play_audio_step from_wave_file flag q t).1 ≤ length q.
Proof.
  pose proof (got_queue from_wave_file flag q t) as H.
  apply (f_equal length) in H. rewrite length_app in H. lia.
Qed.

Lemma tstep_queue_le i (s : @state wav) :
  length (queue (thread_step from_wave_file i s)) ≤ length (queue s).
Proof.
  destruct (threads s !! i) as [t|] eqn:Ht.
  - rewrite (tstep_queue from_wave_file i s t Ht). apply pstep_queue_le.
  - unfold thread_step. by rewrite Ht.
Qed.

Lemma join_queue_le fuel (s s' : @state wav) :
  join from_wave_file fuel s = Some s' →
  length (queue s') ≤ length (queue s).
Proof.
  revert s. induction fuel as [|fuel IH]; intros s; simpl;
    destruct (thread_alive s); try done; try (by intros [= <-]).
  destruct (play_thread s) as [i|]; [|done]. intros Hj.
  apply IH in Hj. pose proof (tstep_queue_le i s). lia.
Qed.

Lemma stop_queue_le fuel (s s' : @state wav) :
  stop_playing from_wave_file fuel s = Some s' →
  length (queue s') ≤ length (queue s).
Proof.
  unfold stop_playing. destruct (thread_alive s); [|by intros [= <-]].
  destruct (join _ _ _) as [s2|] eqn:Hj; [|done]. intros [= <-].
  by apply join_queue_le in Hj.
Qed.

Lemma dispatch_returns fuel r w :
  reachable from_wave_file (Idle, audio_player w) →
  7 * length (queue (audio_player w)) + 6 ≤ fuel →
  ∃ w', exec_all from_wave_file fuel (dispatch to_wav r).1 w = Some w' ∧
        reachable from_wave_file (Idle, audio_player w') ∧
        length (queue (audio_player w')) ≤ S (length (queue (audio_player w))).
Proof.
  intros Hr Hf.
  assert (∀ text, ∃ w',
            exec_all from_wave_file fuel [Print text] w = Some w' ∧
            reachable from_wave_file (Idle, audio_player w') ∧
            length (queue (audio_player w'))
              ≤ S (length (queue (audio_player w)))) as Hprint.
  { intros text. eexists. split; [reflexivity|]. simpl. split; [done|lia]. }
  destruct r as [[message|b|]|e|e]; simpl; try apply Hprint.
  - destruct (message =? turn_end)%string; [apply Hprint|].
    destruct (startswith interrupt message); [|apply Hprint].
    destruct (stop_playing_returns from_wave_file (audio_player w) fuel Hr)
      as (p & Hp & Hrp & _); [unfold join_bound; lia|].
    simpl. rewrite Hp. simpl. eexists. split; [reflexivity|]. simpl.
    split; [done|]. apply stop_queue_le in Hp. lia.
  - destruct (to_wav b) as [wav_data|]; simpl.
    + eexists. split; [reflexivity|]. simpl.
      split; [by apply reachable_start_playing|].
      unfold start_playing.
      destruct (thread_alive _); simpl; rewrite length_app; simpl; lia.
    + eexists. split; [reflexivity|]. split; [done|lia].
Qed.

(** X9.  The dispatcher never hangs in [stop_playing].  From a reachable
    player, [receive_message] gets through any frames with fuel for seven
    worker steps per buffer that is or may get queued, plus six; the
    player it leaves is reachable, so at most one worker is alive. *)
Theorem receive_message_returns fuel inbound w :
  reachable from_wave_file (Idle, audio_player w) →
  7 * (length (queue (audio_player w)) + length inbound) + 6 ≤ fuel →
  ∃ w' o, receive_message from_wave_file to_wav fuel inbound w
          = Some (w', o) ∧
          reachable from_wave_file (Idle, audio_player w') ∧
          live (audio_player w') ≤ 1.
Proof.
  revert w. induction inbound as [|r inbound IH]; intros w Hr Hf.
  - exists w, Waiting. split; [done|]. split; [done|].
    by apply (reachable_live from_wave_file).
  - destruct (dispatch_returns fuel r w Hr) as (w1 & Hw1 & Hr1 & Hq1);
      [simpl in Hf; lia|].
    simpl. destruct (dispatch to_wav r) as [acts c] eqn:Hd. simpl in Hw1.
    rewrite Hw1. simpl. destruct c.
    + apply IH; [done|]. simpl in Hf. lia.
    + exists w1, Done. split; [done|]. split; [done|].
      by apply (reachable_live from_wave_file).
    + exists w1, Failed. split; [done|]. split; [done|].
      by apply (reachable_live from_wave_file).
Qed.

Lemma append_assoc (a b c : string) :
  ((a ++ b) ++ c)%string = (a ++ (b ++ c))%string.
Proof. induction a as [|x a IH]; simpl; by rewrite ?IH. Qed.

Lemma exec_all_console fuel acts w w' :
  exec_all from_wave_file fuel acts w = Some w' →
  console w' = (console w ++ displayed acts)%string.
Proof.
  revert w. induction acts as [|a acts IH]; intros w; simpl.
  - intros [= <-]. by rewrite append_empty.
  - destruct (exec from_wave_file fuel a w) as [w1|] eqn:Hw1; [|done].
    simpl. intros Hw'. rewrite (IH _ Hw').
    destruct a as [text| |wav_data]; simpl in Hw1.
    + injection Hw1 as <-. simpl. by rewrite append_assoc.
    + destruct (stop_playing _ _ _); [|done]. by injection Hw1 as <-.
    + by injection Hw1 as <-.
Qed.

(** X10.  What is printed does not depend on the player.  Whenever
    [receive_message] gets through the frames, the console has grown by
    exactly the text the frames themselves decide, whatever the worker was
    doing and whatever was queued. *)
Theorem console_decided_by_frames fuel inbound w w' o :
  receive_message from_wave_file to_wav fuel inbound w = Some (w', o) →
  console w' = (console w ++ printed to_wav inbound)%string.
Proof.
  revert w. induction inbound as [|r inbound IH]; intros w; simpl.
  - intros [= <- _]. by rewrite append_empty.
  - destruct (dispatch to_wav r) as [acts c].
    destruct (exec_all from_wave_file fuel acts w) as [w1|] eqn:Hw1; [|done].
    simpl. apply exec_all_console in Hw1. destruct c.
    + intros Hw'. by rewrite (IH _ Hw'), Hw1, append_assoc.
    + by intros [= <- _].
    + by intros [= <- _].
Qed.

(** X11.  Frames are handled in arrival order, one after the other: a run
    that has handled a first batch and waits for the next frame goes on
    with a second batch exactly as one run over both; a run that has ended
    ([break] or an exception) takes no further frame. *)
Theorem receive_message_split fuel inbound inbound' w w' o :
  receive_message from_wave_file to_wav fuel inbound w = Some (w', o) →
  receive_message from_wave_file to_wav fuel (inbound ++ inbound') w
  = match o with
    | Waiting => receive_message from_wave_file to_wav fuel inbound' w'
    | Done | Failed => Some (w', o)
    end.
Proof.
  revert w. induction inbound as [|r inbound IH]; intros w; simpl.
  - by intros [= <- <-].
  - destruct (dispatch to_wav r) as [acts c].
    destruct (exec_all from_wave_file fuel acts w) as [w1|]; [|done].
    simpl. destruct c.
    + apply IH.
    + by intros [= <- <-].
    + by intros [= <- <-].
Qed.

Lemma start_playing_queue wav_data (s : @state wav) :
  queue (start_playing wav_data s) = queue s ++ [wav_data] ∧
  stop_flag (start_playing wav_data s) = false.
Proof.
  unfold start_playing.
  set (s0 := set_queue (queue (set_stop_flag false s) ++ [wav_data])
               (set_stop_flag false s)).
  by destruct (thread_alive s0).
Qed.

(** X14.  A binary frame never waits for the player: with no fuel at all
    for the worker, the frame is handled, its buffer is the last of the
    queue, a worker is alive, and nothing is printed. *)
Theorem binary_frame_enqueues b wav_data w :
  to_wav b = Some wav_data →
  ∃ w',
    receive_message from_wave_file to_wav 0 [Message (Binary b)] w
    = Some (w', Waiting) ∧
    console w' = console w ∧
    audio_player w' = start_playing wav_data (audio_player w) ∧
    queue (audio_player w') = queue (audio_player w) ++ [wav_data] ∧
    stop_flag (audio_player w') = false ∧
    thread_alive (audio_player w') = true.
Proof.
  intros H. eexists. simpl. rewrite H. simpl. split; [reflexivity|]. simpl.
  split; [done|]. split; [done|].
  destruct (start_playing_queue wav_data (audio_player w)) as [-> ->].
  by rewrite start_playing_alive.
Qed.

End DispatchMore.

(** * Properties of the producers *)

Section ProducerFacts.

Import Dispatch Producer.

Lemma text_loop_spec accepts stdin :
  (text_loop accepts stdin).2 ≠ Done ∧
  frames (text_loop accepts stdin).1 = take accepts (typed stdin) ∧
  shown (text_loop accepts stdin).1 = EmptyString ∧
  ((text_loop accepts stdin).2 = Waiting ↔
     length stdin ≤ accepts ∧ EndOfInput ∉ stdin).
Proof.
  revert accepts. induction stdin as [|k stdin IH]; intros accepts.
  - simpl. rewrite take_nil. do 3 (split; [done|]).
    split; [|done]. intros _. split; [lia|apply not_elem_of_nil].
  - destruct k as [message|]; simpl.
    + destruct accepts as [|accepts]; simpl.
      * do 3 (split; [done|]). split; [done|]. intros [? _]. lia.
      * destruct (IH accepts) as (Ho & Hf & Hs & Hw).
        destruct (text_loop accepts stdin) as [tr o]. simpl in *.
        rewrite Hf. do 3 (split; [done|]). rewrite Hw. split.
        -- intros [Hl Hn]. split; [lia|].
           intros [?|?]%elem_of_cons; done.
        -- intros [Hl Hn]. split; [lia|].
           intros ?. apply Hn. by right.
    + rewrite take_nil. do 3 (split; [done|]). split; [done|].
      intros [_ Hn]. exfalso. apply Hn. by left.
Qed.

(** X15.  [handle_text] prints the prompt ['You: '] once and then sends the
    typed lines as they are, in the order typed, one frame per line, up to
    the first send the connection refuses or the end of the input.  It
    never returns: it is suspended for the next line exactly when every
    line so far was sent and the input has not ended, and otherwise it is
    left by an exception. *)
Theorem handle_text_sends_lines accepts stdin :
  (handle_text accepts stdin).2 ≠ Done ∧
  frames (handle_text accepts stdin).1 = take accepts (typed stdin) ∧
  shown (handle_text accepts stdin).1 = "You: "%string ∧
  ((handle_text accepts stdin).2 = Waiting ↔
     length stdin ≤ accepts ∧ EndOfInput ∉ stdin).
Proof.
  destruct (text_loop_spec accepts stdin) as (Ho & Hf & Hs & Hw).
  unfold handle_text. destruct (text_loop accepts stdin) as [tr o].
  simpl in *. by rewrite Hs.
Qed.

Lemma audio_loop_spec accepts captures :
  (audio_loop accepts captures).2 ≠ Done ∧
  frames (audio_loop accepts captures).1 = take accepts captures ∧
  shown (audio_loop accepts captures).1
    = (marks (length (take accepts captures)) ++ "[*]")%string ∧
  sleeps (audio_loop accepts captures).1
    = replicate (length (take accepts captures)) 2 ∧
  ((audio_loop accepts captures).2 = Waiting ↔ length captures ≤ accepts).
Proof.
  revert accepts. induction captures as [|a captures IH]; intros accepts.
  - simpl. rewrite take_nil. do 4 (split; [done|]). split; [lia|done].
  - destruct accepts as [|accepts]; simpl.
    + do 4 (split; [done|]). split; [done|lia].
    + destruct (IH accepts) as (Ho & Hf & Hs & Hz & Hw).
      destruct (audio_loop accepts captures) as [tr o]. simpl in *.
      rewrite Hf, Hs, Hz. do 4 (split; [done|]). rewrite Hw. lia.
Qed.

Lemma handle_text_never_done accepts stdin :
  (handle_text accepts stdin).2 ≠ Done.
Proof.
  destruct (text_loop_spec accepts stdin) as (Ho & _).
  unfold handle_text. by destruct (text_loop accepts stdin).
Qed.

Lemma audio_loop_never_done accepts captures :
  (audio_loop accepts captures).2 ≠ Done.
Proof. apply audio_loop_spec. Qed.

(** X16.  The loop of [handle_audio] sends every captured phrase as one
    frame, in the order captured, up to the first send the connection
    refuses.  It prints ['[*]'] before each capture and ['[-]'] after each
    frame sent, and sleeps two seconds after each frame sent.  It never
    returns. *)
Theorem handle_audio_sends_captures accepts captures :
  (audio_loop accepts captures).2 ≠ Done ∧
  frames (audio_loop accepts captures).1 = take accepts captures ∧
  shown (audio_loop accepts captures).1
    = (marks (length (take accepts captures)) ++ "[*]")%string ∧
  sleeps (audio_loop accepts captures).1
    = replicate (length (take accepts captures)) 2 ∧
  ((audio_loop accepts captures).2 = Waiting ↔ length captures ≤ accepts).
Proof. apply audio_loop_spec. Qed.

End ProducerFacts.

(** * Properties of the set-up of the session *)

Section SetupFacts.

Import Dispatch Session Setup.

Lemma digit_value n : n < 10 → nat_of_ascii (digit n) - 48 = n.
Proof.
  intros H. unfold digit. rewrite nat_ascii_embedding by lia. lia.
Qed.

Lemma digits_number fuel n acc :
  n < fuel →
  ∃ k, ∀ a, number (digits fuel n acc) a = number acc (a * 10 ^ k + n).
Proof.
  revert n acc. induction fuel as [|fuel IH]; intros n acc Hn; [lia|].
  cbn [digits]. destruct (n / 10 =? 0) eqn:E.
  - apply Nat.eqb_eq in E. exists 1. intros a. cbn [number].
    assert (n < 10) by (apply Nat.div_small_iff in E; lia).
    rewrite Nat.mod_small, digit_value by done. f_equal.
    rewrite Nat.pow_1_r. lia.
  - apply Nat.eqb_neq in E.
    assert (n / 10 < fuel) as Hlt.
    { assert (0 < n) by (destruct n; [done|lia]).
      pose proof (Nat.div_lt n 10). lia. }
    destruct (IH (n / 10) (String (digit (n mod 10)) acc) Hlt) as [k Hk].
    exists (S k). intros a. rewrite Hk. cbn [number].
    rewrite digit_value by (apply Nat.mod_upper_bound; lia).
    f_equal. pose proof (Nat.div_mod_eq n 10). rewrite Nat.pow_succ_r'. lia.
Qed.

Lemma str_number n : number (str n) 0 = n.
Proof.
  unfold str. destruct (digits_number (S n) n EmptyString) as [k Hk]; [lia|].
  by rewrite Hk.
Qed.

(** X17.  Reading back the decimal text of a client id gives the id, so
    different client ids connect to different addresses. *)
Theorem uri_tells_client_id a b :
  number (str a) 0 = a ∧ (uri a = uri b → a = b).
Proof.
  split; [apply str_number|]. unfold uri. simpl. intros [= H].
  by rewrite <- (str_number a), <- (str_number b), H.
Qed.

Lemma devices_from k infos :
  let ds := omap (λ '(i, d), if has_input d then Some (i, name d) else None)
                 (imap (λ i, pair (k + i)) infos) in
  Forall (λ p, k ≤ p.1) ds ∧ StronglySorted lt (ds.*1).
Proof.
  revert k. induction infos as [|d infos IH]; intros k; simpl.
  { split; constructor. }
  assert (imap ((λ i, pair (k + i)) ∘ S) infos
          = imap (λ i, pair (S k + i)) infos) as ->.
  { apply imap_ext. intros i x _. simpl. f_equal. lia. }
  destruct (IH (S k)) as [Hge Hs]. simpl in Hge, Hs.
  destruct (has_input d); simpl.
  - split.
    + constructor; [simpl; lia|].
      eapply Forall_impl; [exact Hge|]. simpl. intros; lia.
    + constructor; [exact Hs|]. apply Forall_fmap.
      eapply Forall_impl; [exact Hge|]. simpl. intros; lia.
  - split; [|exact Hs].
    eapply Forall_impl; [exact Hge|]. simpl. intros; lia.
Qed.

(** X18.  The devices offered at lines 71-77 are exactly the devices that
    report input channels, each with its own index and name, listed by
    increasing index. *)
Theorem devices_are_the_inputs infos :
  (∀ i n, (i, n) ∈ devices infos ↔
          ∃ d, infos !! i = Some d ∧ name d = n ∧ has_input d = true) ∧
  StronglySorted lt ((devices infos).*1).
Proof.
  split.
  - intros i n. unfold devices. rewrite list_elem_of_omap. split.
    + intros [[j d] [Hin Hf]]. apply elem_of_lookup_imap in Hin
        as (j' & d' & [= -> ->] & Hl).
      destruct (has_input d') eqn:E; [|done]. injection Hf as -> <-. eauto.
    + intros (d & Hl & <- & Hi). exists (i, d). rewrite Hi. split; [|done].
      by apply (elem_of_lookup_imap_2 pair).
  - apply (devices_from 0 infos).
Qed.

(** X19.  Whatever the operator answers, the set-up sends exactly one
    frame, the companion as typed, after the greeting has been received
    and printed; the mode is asked for afterwards and is never sent.  The
    tasks created are those of [create_tasks]: none if the device id
    cannot be read, by which time the companion has been sent. *)
Theorem setup_sends_companion_only client_id welcome companion mode infos device :
  sent (start_client client_id welcome companion mode infos device)
    = [companion] ∧
  created (start_client client_id welcome companion mode infos device)
    = default [] (create_tasks mode device) ∧
  ∃ before after,
    start_client client_id welcome companion mode infos device
      = before ++ Sent companion :: after ∧
    Received welcome ∈ before ∧
    Printed (welcome ++ nl)%string ∈ before ∧
    Asked "Select mode (a: audio, t: text): " ∈ after.
Proof.
  unfold start_client, create_tasks.
  split; [|split].
  - by destruct (lower mode =? "a")%string, device.
  - by destruct (lower mode =? "a")%string, device.
  - eexists (_ :: _ :: _ :: _ :: [_]), _. split; [reflexivity|].
    repeat split; set_solver.
Qed.

Lemma gather_two (evs : list (child * finish)) :
  NoDup (evs.*1) →
  evs = [] ∨ (∃ c f, evs = [(c, f)]) ∨
  ∃ c f f', evs = [(c, f); (sibling c, f')].
Proof.
  destruct evs as [|[c1 f1] [|[c2 f2] [|[c3 f3] evs]]]; simpl; eauto.
  - rewrite !NoDup_cons, !elem_of_cons. intros (Hn & _). right. right.
    exists c1, f1, f2. destruct c1, c2; simpl; try done; exfalso; apply Hn;
      by left.
  - rewrite !NoDup_cons, !elem_of_cons. intros (Hn1 & Hn2 & _). exfalso.
    destruct c1, c2, c3; tauto.
Qed.

(** X20.  [start_client] cannot finish normally.  Its [gather] completes
    with a result only when both tasks have returned, and the producer's
    task returns only if a run of [handle_text] or of the loop of
    [handle_audio] does, which none does: whichever way the two tasks end,
    each at most once, the session is still waiting or has been left by an
    exception or a cancellation. *)
Theorem session_never_returns (evs : list (child * finish)) :
  NoDup (evs.*1) →
  ((Send, Returns) ∈ evs →
     (∃ accepts stdin, (Producer.handle_text accepts stdin).2 = Done) ∨
     (∃ accepts captures, (Producer.audio_loop accepts captures).2 = Done)) →
  outer (run evs gather_start) ≠ Finished Returns.
Proof.
  intros Hnd Hsend.
  assert ((Send, Returns) ∉ evs) as Hno.
  { intros Hin. destruct (Hsend Hin) as [(a & i & H)|(a & c & H)].
    - by apply handle_text_never_done in H.
    - by apply audio_loop_never_done in H. }
  destruct (gather_two evs Hnd) as [->|[(c & f & ->)|(c & f & f' & ->)]].
  - done.
  - by destruct c, f.
  - destruct c, f, f'; simpl; try done; exfalso; apply Hno; set_solver.
Qed.

End SetupFacts.

(** * The further properties on concrete inputs *)

Lemma plays_queue_in_order_witness :
  Observe.taken Fixture.from_wave_file 16 false [Fixture.good; Fixture.good]
    (Player.Thread Player.L33 0) = [Fixture.good; Fixture.good] ∧
  (Observe.run Fixture.from_wave_file 16 false [Fixture.good; Fixture.good]
     (Player.Thread Player.L33 0)).1 = [] ∧
  Player.is_alive
    (Observe.run Fixture.from_wave_file 16 false [Fixture.good; Fixture.good]
       (Player.Thread Player.L33 0)).2 = true.
Proof.
  apply (plays_queue_in_order Fixture.from_wave_file
           [Fixture.good; Fixture.good] 0 16).
  - repeat (constructor; [by eexists|]). constructor.
  - vm_compute. lia.
Defined.

Lemma stop_starts_every_buffer_witness :
  (∀ w n q', [Fixture.good; Fixture.good] = w :: q' →
             Fixture.from_wave_file w = Some n →
             Observe.run Fixture.from_wave_file 5 true
               [Fixture.good; Fixture.good] (Player.Thread Player.L33 0)
             = (q', Player.Thread Player.L42 n) ∧
             Observe.run Fixture.from_wave_file 7 true
               [Fixture.good; Fixture.good] (Player.Thread Player.L33 0)
             = (q', Player.Thread Player.L33 0)) ∧
  Observe.taken Fixture.from_wave_file
    (7 * length [Fixture.good; Fixture.good] + 2) true
    [Fixture.good; Fixture.good] (Player.Thread Player.L33 0)
  = [Fixture.good; Fixture.good] ∧
  (Observe.run Fixture.from_wave_file
     (7 * length [Fixture.good; Fixture.good] + 2) true
     [Fixture.good; Fixture.good] (Player.Thread Player.L33 0)).1 = [] ∧
  Player.pc
    (Observe.run Fixture.from_wave_file
       (7 * length [Fixture.good; Fixture.good] + 2) true
       [Fixture.good; Fixture.good] (Player.Thread Player.L33 0)).2
  = Player.Returned.
Proof.
  apply (stop_starts_every_buffer Fixture.from_wave_file
           [Fixture.good; Fixture.good] 0).
  repeat (constructor; [by eexists|]). constructor.
Defined.

Lemma start_playing_returns_with_worker_witness :
  Player.stop_flag Fixture.started = false ∧
  Player.thread_alive Fixture.started = true ∧
  Player.live Fixture.started = 1.
Proof.
  apply (start_playing_returns_with_worker Fixture.from_wave_file
           Fixture.spawning (Player.Idle, Fixture.started)).
  - exact spawning_reachable.
  - by apply Player.step_main.
  - by right.
  - reflexivity.
Defined.

Lemma stop_playing_twice_witness :
  ∃ s', Player.stop_playing Fixture.from_wave_file 6 Fixture.playing = Some s' ∧
        Player.stop_playing Fixture.from_wave_file 0 s' = Some s'.
Proof.
  eexists. split; [reflexivity|].
  apply (stop_playing_twice Fixture.from_wave_file 6 0 Fixture.playing).
  reflexivity.
Defined.

Lemma start_after_stop_witness :
  ∃ s', Player.stop_playing Fixture.from_wave_file 20 Fixture.poisoned
          = Some s' ∧
        Player.queue s' = [Fixture.good] ∧
        Player.play_thread (Player.start_playing Fixture.good s')
          = Some (length (Player.threads s')) ∧
        Player.threads (Player.start_playing Fixture.good s')
          = Player.threads s' ++ [Player.fresh_thread] ∧
        Player.queue (Player.start_playing Fixture.good s')
          = Player.queue s' ++ [Fixture.good] ∧
        Player.stop_flag (Player.start_playing Fixture.good s') = false ∧
        Player.live (Player.start_playing Fixture.good s') = 1.
Proof.
  eexists. split; [reflexivity|]. split; [reflexivity|].
  apply (start_after_stop Fixture.from_wave_file 20 Fixture.good
           Fixture.poisoned).
  - exact poisoned_reachable.
  - reflexivity.
Defined.

Lemma add_to_queue_not_played_witness :
  Player.threads (Player.add_to_queue Fixture.good Player.init)
    = Player.threads Player.init ∧
  foldr (λ i s', Player.thread_step Fixture.from_wave_file i s')
        (Player.add_to_queue Fixture.good Player.init) [0; 1; 0]
    = Player.add_to_queue Fixture.good Player.init ∧
  Player.queue (Player.add_to_queue Fixture.good Player.init)
    = Player.queue Player.init ++ [Fixture.good].
Proof.
  apply (add_to_queue_not_played Fixture.from_wave_file Fixture.good
           Player.init [0; 1; 0]).
  - unfold Player.reachable. reflexivity.
  - reflexivity.
Defined.

Lemma sounds_never_overlap_witness :
  Observe.sounding Fixture.playing ≤ 1 ∧
  ∀ i t, Player.threads Fixture.playing !! i = Some t →
         0 < Player.play_obj t →
         Player.play_thread Fixture.playing = Some i ∧
         (Player.pc t = Player.L42 ∨ Player.pc t = Player.L45).
Proof.
  exact (sounds_never_overlap Fixture.from_wave_file
           (Player.Idle, Fixture.playing) playing_reachable).
Defined.

Lemma receive_message_returns_witness :
  ∃ w' o,
    Dispatch.receive_message Fixture.from_wave_file Fixture.to_wav 34
      Bench.reply Bench.world = Some (w', o) ∧
    Player.reachable Fixture.from_wave_file
      (Player.Idle, Dispatch.audio_player w') ∧
    Player.live (Dispatch.audio_player w') ≤ 1.
Proof.
  apply (receive_message_returns Fixture.from_wave_file Fixture.to_wav 34
           Bench.reply Bench.world).
  - exact playing_reachable.
  - vm_compute. lia.
Defined.

Lemma console_decided_by_frames_witness :
  ∃ w',
    Dispatch.receive_message Fixture.from_wave_file Fixture.to_wav 34
      Bench.reply Bench.world = Some (w', Dispatch.Waiting) ∧
    Dispatch.console w'
    = (Dispatch.console Bench.world
       ++ Console.printed Fixture.to_wav Bench.reply)%string.
Proof.
  eexists. split; [vm_compute; reflexivity|].
  apply (console_decided_by_frames Fixture.from_wave_file Fixture.to_wav 34
           Bench.reply Bench.world _ Dispatch.Waiting).
  vm_compute. reflexivity.
Defined.

Lemma receive_message_split_witness :
  ∃ w',
    Dispatch.receive_message Fixture.from_wave_file Fixture.to_wav 34
      (take 2 Bench.reply) Bench.world = Some (w', Dispatch.Waiting) ∧
    Dispatch.receive_message Fixture.from_wave_file Fixture.to_wav 34
      (take 2 Bench.reply ++ drop 2 Bench.reply) Bench.world
    = Dispatch.receive_message Fixture.from_wave_file Fixture.to_wav 34
        (drop 2 Bench.reply) w'.
Proof.
  eexists. split; [vm_compute; reflexivity|].
  apply (receive_message_split Fixture.from_wave_file Fixture.to_wav 34
           (take 2 Bench.reply) (drop 2 Bench.reply) Bench.world _
           Dispatch.Waiting).
  vm_compute. reflexivity.
Defined.

Lemma binary_frame_enqueues_witness :
  ∃ w',
    Dispatch.receive_message Fixture.from_wave_file Fixture.to_wav 0
      [Dispatch.Message (Dispatch.Binary Fixture.good)] Bench.world
    = Some (w', Dispatch.Waiting) ∧
    Dispatch.console w' = Dispatch.console Bench.world ∧
    Dispatch.audio_player w'
    = Player.start_playing Fixture.good (Dispatch.audio_player Bench.world) ∧
    Player.queue (Dispatch.audio_player w')
    = Player.queue (Dispatch.audio_player Bench.world) ++ [Fixture.good] ∧
    Player.stop_flag (Dispatch.audio_player w') = false ∧
    Player.thread_alive (Dispatch.audio_player w') = true.
Proof.
  apply (binary_frame_enqueues Fixture.from_wave_file Fixture.to_wav
           Fixture.good Fixture.good Bench.world).
  reflexivity.
Defined.

Lemma session_never_returns_witness :
  Session.outer
    (Session.run [(Session.Receive, Session.Returns);
                  (Session.Send, Session.Raises "ConnectionClosed")]
       Session.gather_start)
  ≠ Session.Finished Session.Returns.
Proof.
  apply (session_never_returns
           [(Session.Receive, Session.Returns);
            (Session.Send, Session.Raises "ConnectionClosed")]).
  - simpl. rewrite !NoDup_cons, !elem_of_cons, elem_of_nil.
    split; [intros [[=]|[]]|]. split; [apply not_elem_of_nil|apply NoDup_nil_2].
  - rewrite !elem_of_cons, elem_of_nil. intros [[=]|[[=]|[]]].
Defined.
